(** * LyricSync: the LRC codec and the transcription client of [App.jsx]

    A shallow embedding of [parseLrc], [formatLrc] and [transcribeAudio]
    and the properties of them that the specification states.

    Conventions of the embedding.
    - A JavaScript string is the list of its UTF-16 code units ([N]).
    - A timestamp is an exact rational ([Q]).  The source computes it in
      IEEE doubles as [m*60 + s + f/d] with [m*60+s] an integer below 6100
      and [f/d] a multiple of 1/1000 in [0,1); every operation is a
      correctly rounded function of the exact value and distinct exact
      values are at least 1/1000 apart, so the doubles are compared by the
      sort exactly as the rationals are ([Qeq], [Qle]).
    - A delay is the exact rational of its expression; the source waits
      that number rounded to a double, so only bounds that rounding keeps
      ([<=] against a double) are stated of a delay.
    - [Array.prototype.sort] is a stable sort (ECMAScript 2019); it is
      embedded as a stable insertion sort.
    - A call that may throw returns an [outcome]; [parseLrc] is proved
      never to throw.
    - The network and [Math.random] are a [World]: the answer to each
      [fetch] call and each random number, by the count of the calls made
      before.  [transcribeAudio] returns how its promise settles together
      with a [Log] of the attempts made and the delays waited. *)

From Stdlib Require Import List NArith ZArith QArith Bool Arith Lia.
From Stdlib Require Import Ascii String Sorting.Sorted Sorting.Permutation.
From Stdlib Require Import DecimalString Lqa.
Import ListNotations.

Local Open Scope N_scope.

(** ** JavaScript strings *)

Module Js.

Definition jsstring := list N.

(** A string literal of the source (ASCII only). *)
Definition lit (s : string) : jsstring :=
  List.map N_of_ascii (list_ascii_of_string s).

(** [WhiteSpace] and [LineTerminator] code units: what [\s] matches and
    what [String.prototype.trim] strips. *)
Definition is_space (c : N) : bool :=
  ((9 <=? c) && (c <=? 13)) || (c =? 32) || (c =? 160) || (c =? 5760)
  || ((8192 <=? c) && (c <=? 8202)) || (c =? 8232) || (c =? 8233)
  || (c =? 8239) || (c =? 8287) || (c =? 12288) || (c =? 65279).

(** [LineTerminator]: the code units that [.] does not match. *)
Definition is_line_terminator (c : N) : bool :=
  (c =? 10) || (c =? 13) || (c =? 8232) || (c =? 8233).

(** [\d] *)
Definition is_digit (c : N) : bool := (48 <=? c) && (c <=? 57).

Definition LF : N := 10.
Definition BACKTICK : N := 96.
Definition LBRACKET : N := 91.
Definition RBRACKET : N := 93.
Definition COLON : N := 58.
Definition DOT : N := 46.

Fixpoint trimStart (s : jsstring) : jsstring :=
  match s with
  | [] => []
  | c :: r => if is_space c then trimStart r else s
  end.

Fixpoint trimEnd (s : jsstring) : jsstring :=
  match s with
  | [] => []
  | c :: r =>
      match trimEnd r with
      | [] => if is_space c then [] else [c]
      | r' => c :: r'
      end
  end.

(** [s.trim()] *)
Definition trim (s : jsstring) : jsstring := trimStart (trimEnd s).

(** [s.split(sep)] for a one-unit separator: never the empty array. *)
Fixpoint split (sep : N) (s : jsstring) : list jsstring :=
  match s with
  | [] => [[]]
  | c :: r =>
      if c =? sep then [] :: split sep r
      else match split sep r with
           | h :: t => (c :: h) :: t
           | [] => [[c]]
           end
  end.

(** [parts.join(sep)] *)
Fixpoint join (sep : N) (parts : list jsstring) : jsstring :=
  match parts with
  | [] => []
  | [p] => p
  | p :: rest => p ++ sep :: join sep rest
  end.

(** [s.slice(1, -1)] *)
Definition slice_1_m1 (s : jsstring) : jsstring := removelast (tl s).

(** [x.length === 3] *)
Definition length_is (n : nat) (s : jsstring) : bool :=
  Nat.eqb (List.length s) n.

(** The longest prefix [.*] can match: up to the first line terminator. *)
Fixpoint dot_star (s : jsstring) : jsstring :=
  match s with
  | [] => []
  | c :: r => if is_line_terminator c then [] else c :: dot_star r
  end.

(** [parseInt(s, 10)] on a string of decimal digits: the value of its
    longest digit prefix, [None] (NaN) when there is none.  The source
    applies it only to what [\d{2}] and [\d{1,3}] matched, and to ['0']. *)
Fixpoint digits_value (acc : N) (s : jsstring) : N :=
  match s with
  | [] => acc
  | c :: r => if is_digit c then digits_value (10 * acc + (c - 48)) r else acc
  end.

Definition parseInt10 (s : jsstring) : option N :=
  match s with
  | c :: _ => if is_digit c then Some (digits_value 0 s) else None
  | [] => None
  end.

(** [String(n)] for a non-negative integer. *)
Definition of_nat (n : nat) : jsstring :=
  lit (NilEmpty.string_of_uint (Nat.to_uint n)).

Definition of_N (n : N) : jsstring := of_nat (N.to_nat n).

End Js.
Import Js.

(** ** Outcomes of a call: a value, or an exception *)

Inductive failure : Type :=
| TypeError      (* a property read on [undefined] *)
| NotANumber.    (* a NaN timestamp, which [Q] has no value for *)

Inductive outcome (A : Type) : Type :=
| Returns (a : A)
| Throws (e : failure).
Arguments Returns {A} a.
Arguments Throws {A} e.

Definition bind {A B} (o : outcome A) (k : A -> outcome B) : outcome B :=
  match o with
  | Returns a => k a
  | Throws e => Throws e
  end.

(** [xs.map(f)] for an [f] that may throw: the first exception wins. *)
Fixpoint map_outcome {A B} (f : A -> outcome B) (xs : list A)
  : outcome (list B) :=
  match xs with
  | [] => Returns []
  | x :: r =>
      bind (f x) (fun y => bind (map_outcome f r) (fun ys => Returns (y :: ys)))
  end.

(** [xs.filter(Boolean)] on an array of objects and [null]s. *)
Fixpoint filter_Boolean {A} (xs : list (option A)) : list A :=
  match xs with
  | [] => []
  | Some x :: r => x :: filter_Boolean r
  | None :: r => filter_Boolean r
  end.

(** ** Regular expressions, as the backtracking engine runs them

    Every matcher consumes a prefix of its input and returns what it
    consumed together with what is left. *)

Module Regex.

Definition matcher := jsstring -> option (jsstring * jsstring).

(** One given code unit. *)
Definition unit_ (c : N) : matcher := fun s =>
  match s with
  | x :: r => if x =? c then Some ([x], r) else None
  | [] => None
  end.

(** [\d{k}] *)
Fixpoint digits (k : nat) : matcher := fun s =>
  match k with
  | O => Some ([], s)
  | S k' =>
      match s with
      | x :: r =>
          if is_digit x then
            match digits k' r with
            | Some (m, r') => Some (x :: m, r')
            | None => None
            end
          else None
      | [] => None
      end
  end.

(** Concatenation of two matchers. *)
Definition seq_ (p q : matcher) : matcher := fun s =>
  match p s with
  | Some (m1, r1) =>
      match q r1 with
      | Some (m2, r2) => Some (m1 ++ m2, r2)
      | None => None
      end
  | None => None
  end.

(** Ordered choice: the alternatives in the order the backtracking
    engine tries them. *)
Definition alt_ (p q : matcher) : matcher := fun s =>
  match p s with
  | Some r => Some r
  | None => q s
  end.

(** A literal run of code units. *)
Fixpoint literal (w : jsstring) : matcher := fun s =>
  match w with
  | [] => Some ([], s)
  | c :: w' =>
      match s with
      | x :: r =>
          if x =? c then
            match literal w' r with
            | Some (m, r') => Some (x :: m, r')
            | None => None
            end
          else None
      | [] => None
      end
  end.

(** Greedy [\s*], when no shorter run could make what follows it match
    (what follows starts with a unit that is not white space). *)
Fixpoint spaces (s : jsstring) : option (jsstring * jsstring) :=
  match s with
  | x :: r =>
      if is_space x then
        match spaces r with
        | Some (m, r') => Some (x :: m, r')
        | None => None
        end
      else Some ([], s)
  | [] => Some ([], [])
  end.

End Regex.
Import Regex.

(** ** The LRC codec *)

Module Lrc.

Record LyricLine : Type := mkLine {
  timestamp : Q;
  text : jsstring;
  lrcTime : jsstring
}.

(** *** [lineRegex]: a bracketed tag (group 1: two digits, a colon, two
    digits, an optional dot with one to three digits) and then group 2, any
    run of units other than line terminators. *)

(** [\.\d{k}\]]: a fraction of exactly [k] digits and the closing bracket. *)
Definition fraction_close (k : nat) : matcher :=
  seq_ (unit_ DOT) (seq_ (digits k) (unit_ RBRACKET)).

(** [(?:\.\d{1,3})?\]]: the greedy quantifiers try three digits, then two,
    then one, then the group left out. *)
Definition tag_tail : matcher :=
  alt_ (fraction_close 3)
    (alt_ (fraction_close 2)
       (alt_ (fraction_close 1) (unit_ RBRACKET))).

(** [\[\d{2}:\d{2}(?:\.\d{1,3})?\]] anchored at the head of the input. *)
Definition tag_here : matcher :=
  seq_ (unit_ LBRACKET)
    (seq_ (digits 2) (seq_ (unit_ COLON) (seq_ (digits 2) tag_tail))).

(** The leftmost position at which the tag matches: the tag and the rest
    of the input after it. *)
Fixpoint find_tag (s : jsstring) : option (jsstring * jsstring) :=
  match tag_here s with
  | Some r => Some r
  | None =>
      match s with
      | [] => None
      | _ :: s' => find_tag s'
      end
  end.

(** [s.match(lineRegex)]: [match[1]] and [match[2]], or [null]. *)
Definition match_lineRegex (s : jsstring) : option (jsstring * jsstring) :=
  match find_tag s with
  | Some (tag, after) => Some (tag, dot_star after)
  | None => None
  end.

(** *** [parseLrc] *)

Definition num (n : N) : Q := inject_Z (Z.of_N n).

(** [milliseconds || '0'] *)
Definition or_zero (milliseconds : option jsstring) : jsstring :=
  match milliseconds with
  | Some (c :: r) => c :: r
  | _ => lit "0"
  end.

(** [milliseconds?.length === 3 ? 1000 : 100] *)
Definition divisor (milliseconds : option jsstring) : N :=
  match milliseconds with
  | Some ms => if length_is 3 ms then 1000 else 100
  | None => 100
  end.

(** The conversion of [timestampStr] (the tag without its brackets). *)
Definition timeInSeconds (timestampStr : jsstring) : outcome Q :=
  match split COLON timestampStr with
  | minutes :: rest :: _ =>
      match split DOT rest with
      | seconds :: more =>
          let milliseconds := hd_error more in
          match parseInt10 minutes, parseInt10 seconds,
                parseInt10 (or_zero milliseconds) with
          | Some m, Some s, Some f =>
              Returns (num m * 60 + num s + num f / num (divisor milliseconds))%Q
          | _, _, _ => Throws NotANumber
          end
      | [] => Throws NotANumber
      end
  | _ => Throws TypeError
  end.

(** The callback of [lines.map]: a line object, or [null]. *)
Definition parse_line (line : jsstring) : outcome (option LyricLine) :=
  match match_lineRegex (trim line) with
  | Some (m1, m2) =>
      bind (timeInSeconds (slice_1_m1 m1)) (fun t =>
        Returns (Some {| timestamp := t; text := trim m2; lrcTime := m1 |}))
  | None => Returns None
  end.

(** [(a, b) => a.timestamp - b.timestamp] *)
Definition compare_lines (a b : LyricLine) : Q :=
  (timestamp a - timestamp b)%Q.

(** [xs.sort(cmp)]: stable; [x], which came first, stays before [y] unless
    [cmp(x, y) > 0]. *)
Section Sort.
Context {A : Type} (cmp : A -> A -> Q).

Fixpoint insert (x : A) (sorted : list A) : list A :=
  match sorted with
  | [] => [x]
  | y :: r => if Qle_bool (cmp x y) 0 then x :: sorted else y :: insert x r
  end.

Definition sort (xs : list A) : list A := fold_right insert [] xs.
End Sort.

(** [lrcContent] is a string, or [null]/[undefined] ([None]). *)
Definition parseLrc (lrcContent : option jsstring) : outcome (list LyricLine) :=
  match lrcContent with
  | None | Some [] => Returns []
  | Some s =>
      bind (map_outcome parse_line (split LF s)) (fun parsed =>
        Returns (sort compare_lines (filter_Boolean parsed)))
  end.

Definition formatLrc (parsedLines : list LyricLine) : jsstring :=
  join LF (List.map (fun line => lrcTime line ++ text line) parsedLines).

End Lrc.
Import Lrc.


(** ** The transcription client *)

Module Client.

(** The two arguments of the call that reach the endpoint. *)
Record Request : Type := {
  base64AudioData : jsstring;
  mimeType : jsstring
}.

(** What reading the body gives.  [Unreadable]: an exception is thrown,
    with the given message, by [await response.json()] (the body is not
    JSON), by the read of [errorBody.error] (the body is JSON [null], at
    a status that is not ok) or by [text.replace] (the text is not a
    string).  Otherwise the two paths the source reads are
    [errorBody.error?.message] and
    [result?.candidates?.[0]?.content?.parts?.[0]?.text], each a string
    or [undefined] ([None]; so stands any value the source takes for
    false). *)
Inductive Body : Type :=
| Unreadable (message : jsstring)
| Json (error_message : option jsstring) (candidate_text : option jsstring).

(** What [await fetch(...)] gives: a rejection (network failure), or a
    response with its HTTP status. *)
Inductive Fetched : Type :=
| Rejected (message : jsstring)
| Resolved (status : N) (body : Body).

(** The world the call runs in: the answer to the [k]-th [fetch] and the
    [k]-th value of [Math.random()], counted from 0. *)
Record World : Type := {
  endpoint : Request -> nat -> Fetched;
  random : nat -> Q
}.

(** What the call has done so far: the [fetch] calls made and the
    [setTimeout] delays waited, in milliseconds, oldest first. *)
Record Log : Type := {
  attempts : nat;
  delays : list Q
}.

Definition start : Log := {| attempts := 0; delays := [] |}.

(** The promise the call returns: fulfilled with the text, or rejected
    with an [Error] of the given message. *)
Inductive Settled : Type :=
| Fulfilled (cleanedText : jsstring)
| Failed (message : jsstring).

(** [response.ok] *)
Definition ok (status : N) : bool := (200 <=? status) && (status <=? 299).

(** [x || fallback] on a string or [undefined]. *)
Definition or_else (x : option jsstring) (fallback : jsstring) : jsstring :=
  match x with
  | Some (c :: r) => c :: r
  | _ => fallback
  end.

Definition status_message (status : N) : jsstring :=
  lit "API request failed with status " ++ of_N status.

Definition EMPTY_RESPONSE : jsstring :=
  lit "Received an empty response from the AI model.".

Definition UNKNOWN_ERROR : jsstring :=
  lit "Unknown error during transcription process.".

Definition after_attempts (maxRetries : nat) (message : jsstring) : jsstring :=
  lit "Failed to transcribe audio after " ++ of_nat maxRetries
  ++ lit " attempts: " ++ message.

Definition FENCE : jsstring := [BACKTICK; BACKTICK; BACKTICK].

Definition FENCE_LRC : jsstring := FENCE ++ lit "lrc".

(** The regular expression of the clean-up: the [lrc] fence and the white
    space after it, or white space and the fence after it. *)
Definition fence : matcher :=
  alt_ (seq_ (literal FENCE_LRC) spaces) (seq_ spaces (literal FENCE)).

(** [text.replace(fence, '')] with the [g] flag: every match is dropped and
    the search goes on after it; [skip] counts the units of the current
    match still to drop (a match is never empty). *)
Fixpoint replace_fences (skip : nat) (s : jsstring) : jsstring :=
  match s with
  | [] => []
  | c :: r =>
      match skip with
      | S k => replace_fences k r
      | O =>
          match fence s with
          | Some (m, _) => replace_fences (List.length m - 1) r
          | None => c :: replace_fences 0 r
          end
      end
  end.

Definition clean (text : jsstring) : jsstring := trim (replace_fences 0 text).

(** [Math.pow(2, i) * 1000 + Math.random() * 1000], as the exact number.
    The source computes the expression in doubles, so what it waits is
    this number rounded to the nearest double, twice (after the product,
    after the sum).  Rounding is monotone and leaves a double as it is:
    it keeps a bound [<=] between this number and a double, and it does
    not keep a bound [<] (at [i = 1] and the random value [1 - 2^-52]
    the exact number is below 3000 and the double is 3000).  Only bounds
    of the first kind are stated of [backoff]. *)
Definition backoff (i : nat) (r : Q) : Q :=
  (inject_Z (2 ^ Z.of_nat i) * 1000 + r * 1000)%Q.

(** How one run of the [try] block ends. *)
Inductive Step : Type :=
| Continue (log : Log)
| Return (cleanedText : jsstring) (log : Log)
| Caught (message : jsstring) (log : Log).

Definition fetched (log : Log) : Log :=
  {| attempts := S (attempts log); delays := delays log |}.

Definition waited (delay : Q) (log : Log) : Log :=
  {| attempts := attempts log; delays := delays log ++ [delay] |}.

(** The [try] block of iteration [i]. *)
Definition try_block (w : World) (req : Request) (maxRetries i : nat)
    (log : Log) : Step :=
  let log' := fetched log in
  match endpoint w req (attempts log) with
  | Rejected message => Caught message log'
  | Resolved status body =>
      if (status =? 429) && (i <? maxRetries - 1)%nat then
        let delay := backoff i (random w (List.length (delays log))) in
        Continue (waited delay log')
      else if negb (ok status) then
        match body with
        | Unreadable message => Caught message log'
        | Json error_message _ =>
            Caught (or_else error_message (status_message status)) log'
        end
      else
        match body with
        | Unreadable message => Caught message log'
        | Json _ None | Json _ (Some []) => Caught EMPTY_RESPONSE log'
        | Json _ (Some text) => Return (clean text) log'
        end
  end.

(** The [for] loop from iteration [i], with [remaining = maxRetries - i]
    iterations to go; the [catch] block rethrows on the last iteration only
    and otherwise lets the loop go on. *)
Fixpoint loop (w : World) (req : Request) (maxRetries remaining i : nat)
    (log : Log) : Settled * Log :=
  match remaining with
  | O => (Failed UNKNOWN_ERROR, log)
  | S remaining' =>
      match try_block w req maxRetries i log with
      | Continue log' => loop w req maxRetries remaining' (S i) log'
      | Return cleanedText log' => (Fulfilled cleanedText, log')
      | Caught message log' =>
          if (i =? maxRetries - 1)%nat
          then (Failed (after_attempts maxRetries message), log')
          else loop w req maxRetries remaining' (S i) log'
      end
  end.

Definition transcribeAudio (w : World) (req : Request) (maxRetries : nat)
  : Settled * Log :=
  loop w req maxRetries maxRetries 0 start.

End Client.
Import Client.
(** ** Vocabulary of the statements *)

(** [c] does not occur in [s]. *)
Definition free_of (c : N) (s : jsstring) : bool :=
  forallb (fun x => negb (x =? c)) s.

(** No line terminator occurs in [s]. *)
Definition no_terminator (s : jsstring) : bool :=
  forallb (fun c => negb (is_line_terminator c)) s.

Definition all_digits (s : jsstring) : bool := forallb is_digit s.

(** The fraction of a tag: absent, or a dot and one to three digits. *)
Definition is_fraction (fr : jsstring) : Prop :=
  fr = [] \/
  exists ds, fr = DOT :: ds /\ all_digits ds = true /\
             (1 <= List.length ds <= 3)%nat.

(** [[MM:SS]] or [[MM:SS.f]], [[MM:SS.ff]], [[MM:SS.fff]]. *)
Definition is_tag (t : jsstring) : Prop :=
  exists mm ss fr,
    List.length mm = 2%nat /\ all_digits mm = true /\
    List.length ss = 2%nat /\ all_digits ss = true /\
    is_fraction fr /\
    t = LBRACKET :: mm ++ COLON :: ss ++ fr ++ [RBRACKET].

(** The value of a string of decimal digits. *)
Definition decimal (ds : jsstring) : N :=
  fold_left (fun acc c => 10 * acc + (c - 48)) ds 0.

(** The digits after the dot of a fraction, when there is one. *)
Definition fraction_digits (fr : jsstring) : option jsstring :=
  match fr with
  | [] => None
  | _ :: ds => Some ds
  end.

(** What the source computes for the tag [[mm:ss fr]]. *)
Definition tag_seconds (mm ss fr : jsstring) : Q :=
  (num (decimal mm) * 60 + num (decimal ss)
   + num (decimal (or_zero (fraction_digits fr)))
     / num (divisor (fraction_digits fr)))%Q.

(** The line object of a line, [None] for [null]. *)
Definition line_of (line : jsstring) : option LyricLine :=
  match parse_line line with
  | Returns o => o
  | Throws _ => None
  end.

(** The timestamp the source computes for a tag. *)
Definition seconds_of_tag (t : jsstring) : Q :=
  match timeInSeconds (slice_1_m1 t) with
  | Returns q => q
  | Throws _ => 0%Q
  end.

(** The comparator of a sort by a numeric key, the order it sorts into, and
    the elements whose key is the number [t]. *)
Definition by_key {A : Type} (key : A -> Q) (a b : A) : Q := (key a - key b)%Q.

Definition key_le {A : Type} (key : A -> Q) (a b : A) : Prop :=
  (key a <= key b)%Q.

Definition at_key {A : Type} (key : A -> Q) (t : Q) (a : A) : bool :=
  Qeq_bool (key a) t.

(** A tag written from its parts: minutes, seconds and, when there is a
    fraction, the digits after the dot. *)
Definition fraction_text (fd : option jsstring) : jsstring :=
  match fd with
  | Some ds => DOT :: ds
  | None => []
  end.

Definition make_tag (mm ss : jsstring) (fd : option jsstring) : jsstring :=
  LBRACKET :: mm ++ COLON :: ss ++ fraction_text fd ++ [RBRACKET].

(** Two digits, two digits and, when there is a fraction, one to three
    digits. *)
Definition well_formed (mm ss : jsstring) (fd : option jsstring) : bool :=
  Nat.eqb (List.length mm) 2 && all_digits mm
  && Nat.eqb (List.length ss) 2 && all_digits ss
  && match fd with
     | Some ds =>
         all_digits ds && Nat.leb 1 (List.length ds)
         && Nat.leb (List.length ds) 3
     | None => true
     end.

(** [MM*60 + SS + fractional/divisor]: the divisor is 1000 for three
    digits and 100 otherwise; no fraction adds nothing. *)
Definition seconds (mm ss : jsstring) (fd : option jsstring) : Q :=
  (num (decimal mm) * 60 + num (decimal ss)
   + match fd with
     | Some ds =>
         num (decimal ds)
         / (if Nat.eqb (List.length ds) 3 then 1000 else 100)
     | None => 0
     end)%Q.

(** A line in which a tag occurs. *)
Definition has_tag (line : jsstring) : bool :=
  match find_tag line with
  | Some _ => true
  | None => false
  end.

(** The line objects of a text, in the order of its lines. *)
Definition parsed_lines (s : jsstring) : list LyricLine :=
  filter_Boolean (List.map line_of (split LF s)).

Definition lines_in_order (lrcContent : option jsstring) : list LyricLine :=
  match lrcContent with
  | Some s => parsed_lines s
  | None => []
  end.

(** The line object of a raw line with a tag (for a line without one, an
    object that nothing uses). *)
Definition the_line (line : jsstring) : LyricLine :=
  match line_of line with
  | Some l => l
  | None => mkLine 0 [] []
  end.

(** A tag occurs in the line: said of the characters, without the
    matcher of the source. *)
Definition contains_tag (line : jsstring) : Prop :=
  exists a t b, line = a ++ t ++ b /\ is_tag t.

(** [some] is [all] without the elements that do not satisfy [P], in the
    order of [all]. *)
Inductive kept {A : Type} (P : A -> Prop) : list A -> list A -> Prop :=
| kept_nil : kept P [] []
| kept_yes x all some : P x -> kept P all some -> kept P (x :: all) (x :: some)
| kept_no x all some : ~ P x -> kept P all some -> kept P (x :: all) some.

(** A raw line cut at a tag: what stands before the tag, the parts of the
    tag, and what stands after it. *)
Record TaggedLine : Type := {
  lead : jsstring;
  mins : jsstring;
  secs : jsstring;
  frac : option jsstring;
  trail : jsstring
}.

Definition tag_of (e : TaggedLine) : jsstring :=
  make_tag (mins e) (secs e) (frac e).

Definition raw_line (e : TaggedLine) : jsstring :=
  lead e ++ tag_of e ++ trail e.

(** The cut is at the first tag of the line: the tag is well formed and
    no tag occurs before it. *)
Definition first_tag (e : TaggedLine) : Prop :=
  well_formed (mins e) (secs e) (frac e) = true /\ ~ contains_tag (lead e).

(** The time of the tag, by the formula of the conversion. *)
Definition time_of (e : TaggedLine) : Q := seconds (mins e) (secs e) (frac e).

(** The text after the tag: up to the first line terminator that is left
    in the line once the white space at its end is taken off, trimmed. *)
Definition text_of (e : TaggedLine) : jsstring :=
  trim (dot_star (trimEnd (trail e))).

(** The line as it is expected back: the tag, then the text. *)
Definition written (e : TaggedLine) : jsstring := tag_of e ++ text_of e.

(** The line object the source builds for the line. *)
Definition line_object (e : TaggedLine) : LyricLine :=
  {| timestamp := seconds_of_tag (tag_of e);
     text := text_of e;
     lrcTime := tag_of e |}.

(** [p] is a prefix of [s]. *)
Fixpoint starts_with (p s : jsstring) : bool :=
  match p, s with
  | [], _ => true
  | c :: p', x :: s' => (x =? c) && starts_with p' s'
  | _ :: _, [] => false
  end.

(** In [inner] followed by the closing fence, no fence starts before the
    closing one: [inner] is the content of one fenced block. *)
Fixpoint no_fence_inside (inner : jsstring) : bool :=
  match inner with
  | [] => true
  | _ :: r => negb (starts_with FENCE (inner ++ FENCE)) && no_fence_inside r
  end.

(** A response that makes the call return: an ok status and a text that is
    not empty. *)
Definition fulfils (f : Fetched) : bool :=
  match f with
  | Resolved status (Json _ (Some (_ :: _))) => ok status
  | _ => false
  end.

(** How the [try] block reacts to what [fetch] gave at iteration [i]. *)
Inductive Reaction : Type :=
| Wait
| Throw (message : jsstring)
| Give (cleanedText : jsstring).

Definition reaction (maxRetries i : nat) (f : Fetched) : Reaction :=
  match f with
  | Rejected message => Throw message
  | Resolved status body =>
      if (status =? 429) && (i <? maxRetries - 1)%nat then Wait
      else
        match body with
        | Unreadable message => Throw message
        | Json error_message text =>
            if negb (ok status)
            then Throw (or_else error_message (status_message status))
            else match text with
                 | Some (c :: r) => Give (clean (c :: r))
                 | _ => Throw EMPTY_RESPONSE
                 end
        end
  end.

(** The log after iteration [i] reacted with [r]. *)
Definition log_after (w : World) (i : nat) (r : Reaction) (log : Log) : Log :=
  match r with
  | Wait => waited (backoff i (random w (List.length (delays log)))) (fetched log)
  | _ => fetched log
  end.

(** The delays waited after [k] rate-limit answers in a row from the
    start: [backoff 0], ..., [backoff (k-1)], each with its own jitter. *)
Definition backoffs (w : World) (k : nat) : list Q :=
  List.map (fun j => backoff j (random w j)) (seq 0 k).

(** The message of the error thrown for a response that is not ok: what
    reading the body threw, or the remote message when there is one, or the
    status message. *)
Definition failure_message (status : N) (body : Body) : jsstring :=
  match body with
  | Unreadable message => message
  | Json error_message _ => or_else error_message (status_message status)
  end.

(** An error response other than the rate-limit one, with the message of
    the error it makes the [try] block throw. *)
Definition remote_failure (f : Fetched) : option jsstring :=
  match f with
  | Resolved status body =>
      if ok status || (status =? 429) then None
      else Some (failure_message status body)
  | Rejected _ => None
  end.

(** Worlds and a request for the examples. *)
Definition a_request : Request :=
  {| base64AudioData := lit "SUQzBAAAAAAA"; mimeType := lit "audio/mpeg" |}.

Definition half : nat -> Q := fun _ => (1 # 2)%Q.

(** Every call is answered 500 with the remote message ["boom"]. *)
Definition always_500 : World :=
  {| endpoint := fun _ _ => Resolved 500 (Json (Some (lit "boom")) None);
     random := half |}.

(** The first call is answered 503 without a message, the next ones 200
    with a one-line transcript. *)
Definition once_503 : World :=
  {| endpoint := fun _ k =>
       match k with
       | O => Resolved 503 (Json None None)
       | S _ => Resolved 200 (Json None (Some (lit "[00:01.00] hi")))
       end;
     random := half |}.

(** The first two calls are answered 429, the next ones 200 with a
    one-line transcript. *)
Definition twice_429 : World :=
  {| endpoint := fun _ k =>
       match k with
       | O | S O => Resolved 429 (Json None None)
       | S (S _) => Resolved 200 (Json None (Some (lit "[00:01.00] hi")))
       end;
     random := half |}.

(** Every call is answered 200 with an empty text. *)
Definition always_empty : World :=
  {| endpoint := fun _ _ => Resolved 200 (Json None (Some []));
     random := half |}.

(** Every call is answered 200 with a text of three spaces. *)
Definition always_blank : World :=
  {| endpoint := fun _ _ => Resolved 200 (Json None (Some (lit "   ")));
     random := half |}.

(** The first call is answered 200 with an empty text, the next ones 200
    with a one-line transcript. *)
Definition empty_once : World :=
  {| endpoint := fun _ k =>
       match k with
       | O => Resolved 200 (Json None (Some []))
       | S _ => Resolved 200 (Json None (Some (lit "[00:01.00] hi")))
       end;
     random := half |}.

(** Every call is answered 429 with, as its remote message, the sentence
    of the empty response. *)
Definition rate_limited_as_empty : World :=
  {| endpoint := fun _ _ => Resolved 429 (Json (Some EMPTY_RESPONSE) None);
     random := half |}.

(** Every call is answered 502 with a body that is not JSON. *)
Definition always_502 : World :=
  {| endpoint := fun _ _ =>
       Resolved 502 (Unreadable (lit "Unexpected token < in JSON at position 0"));
     random := half |}.

(** Every call is answered 200 with a fenced transcript. *)
Definition always_fenced : World :=
  {| endpoint := fun _ _ =>
       Resolved 200
         (Json None (Some (FENCE_LRC ++ [LF] ++ lit "[00:01.00] hi" ++ [LF]
                           ++ FENCE)));
     random := half |}.

(** ** The download name, the file reading and the event handlers of
    [App.jsx] *)

Module Ui.

Definition SLASH : N := 47.
Definition COMMA : N := 44.

(** The class of the units other than the slash and the dot. *)
Definition not_slash_dot (c : N) : bool :=
  negb (c =? SLASH) && negb (c =? DOT).

(** The longest run of units of a class at the head of the input. *)
Fixpoint run (p : N -> bool) (s : jsstring) : jsstring * jsstring :=
  match s with
  | c :: r =>
      if p c then let (m, r') := run p r in (c :: m, r') else ([], s)
  | [] => ([], [])
  end.

(** One or more units of a class, greedy, when no shorter run could make
    what follows match (what follows is the end of the input). *)
Definition plus_ (p : N -> bool) : matcher := fun s =>
  match run p s with
  | ([], _) => None
  | (m, r) => Some (m, r)
  end.

(** The end of the input. *)
Definition eos : matcher := fun s =>
  match s with
  | [] => Some ([], [])
  | _ :: _ => None
  end.

(** The regular expression of the extension: a dot, one or more units
    other than slash and dot, the end of the input. *)
Definition extension : matcher :=
  seq_ (unit_ DOT) (seq_ (plus_ not_slash_dot) eos).

(** [s.replace(rx, by)] without the [g] flag: the leftmost match only. *)
Fixpoint replace_first (rx : matcher) (by_ : jsstring) (s : jsstring)
  : jsstring :=
  match rx s with
  | Some (_, r) => by_ ++ r
  | None =>
      match s with
      | [] => []
      | c :: s' => c :: replace_first rx by_ s'
      end
  end.

Definition strip_extension (name : jsstring) : jsstring :=
  replace_first extension [] name.

Definition lrcFileName (fileName : jsstring) : jsstring :=
  strip_extension fileName ++ lit ".lrc".

(** [handleDownload]: nothing for an empty editor; otherwise the name and
    the content of the file offered for download. *)
Definition handleDownload (editableTranscript fileName : jsstring)
  : option (jsstring * jsstring) :=
  match editableTranscript with
  | [] => None
  | _ :: _ => Some (lrcFileName fileName, editableTranscript)
  end.

Inductive AppState : Type := IDLE | PROCESSING | READY | ERROR.

Record File : Type := {
  name : jsstring;
  type_ : jsstring;
  size : N
}.

(** The state of the [App] component. *)
Record App : Type := {
  appState : AppState;
  transcript : option jsstring;
  audioUrl : option jsstring;
  currentFile : option File;
  errorMessage : option jsstring
}.

(** What the [FileReader] ends with: [reader.result], or an error. *)
Inductive Read : Type :=
| Loaded (result : jsstring)
| ReadError.

(** The browser around the component. *)
Record Browser : Type := {
  network : World;
  readAsDataURL : File -> Read;
  createObjectURL : File -> jsstring
}.

Definition READ_DATA_FAILED : jsstring := lit "Failed to read file data.".
Definition READ_FILE_FAILED : jsstring := lit "Failed to read the file.".
Definition TRANSCRIPTION_FAILED : jsstring :=
  lit "Transcription failed. Please check file type and size.".

(** [base64DataPromise]: resolved with [base64String.split(',')[1]] when
    that is a string that is not empty.  On an error of the reader the
    [error] event comes before [loadend], so [onerror] rejects first. *)
Definition base64DataPromise (r : Read) : Settled :=
  match r with
  | Loaded base64String =>
      match nth_error (split COMMA base64String) 1 with
      | Some (c :: p) => Fulfilled (c :: p)
      | _ => Failed READ_DATA_FAILED
      end
  | ReadError => Failed READ_FILE_FAILED
  end.

(** The [catch] block of [handleAnalyze]. *)
Definition failed (message : jsstring) (st : App) : App :=
  {| appState := ERROR;
     transcript := transcript st;
     audioUrl := audioUrl st;
     currentFile := currentFile st;
     errorMessage := Some (or_else (Some message) TRANSCRIPTION_FAILED) |}.

(** [handleAnalyze]: the state once the handler has run to its end, and
    the log of the call to [transcribeAudio] (with its default of 5). *)
Definition handleAnalyze (b : Browser) (st : App) : App * Log :=
  match currentFile st with
  | None => (st, start)
  | Some file =>
      let processing :=
        {| appState := PROCESSING;
           transcript := transcript st;
           audioUrl := audioUrl st;
           currentFile := currentFile st;
           errorMessage := None |} in
      match base64DataPromise (readAsDataURL b file) with
      | Failed message => (failed message processing, start)
      | Fulfilled base64Data =>
          let req :=
            {| base64AudioData := base64Data;
               mimeType := or_else (Some (type_ file)) (lit "audio/mp3") |} in
          match transcribeAudio (network b) req 5 with
          | (Fulfilled result, log) =>
              ({| appState := READY;
                  transcript := Some result;
                  audioUrl := audioUrl st;
                  currentFile := currentFile st;
                  errorMessage := None |}, log)
          | (Failed message, log) => (failed message processing, log)
          end
      end
  end.

Definition handleFileSelect (b : Browser) (file : File) (st : App) : App :=
  {| appState := IDLE;
     transcript := None;
     audioUrl := Some (createObjectURL b file);
     currentFile := Some file;
     errorMessage := None |}.

Definition resetApp (st : App) : App :=
  {| appState := IDLE;
     transcript := None;
     audioUrl := None;
     currentFile := None;
     errorMessage := None |}.

(** [TranscriptDisplay]: the editor starts from [transcript || ''], and
    the preview shows the line objects of the editor's text. *)
Definition editableTranscript (transcript : option jsstring) : jsstring :=
  or_else transcript [].


End Ui.
Import Ui.

(** ** The components of the TypeScript variant *)

Module Components.

(** What [validateAndUpload] does with a file. *)
Inductive Upload : Type :=
| Ignored
| Alerted (message : jsstring)
| Selected (file : File).

Definition MAX_SIZE : N := 20 * 1024 * 1024.

Definition validateAndUpload (isLoading : bool) (file : File) : Upload :=
  if isLoading then Ignored
  else if negb (starts_with (lit "audio/") (type_ file))
  then Alerted (lit "Please upload an audio file.")
  else if MAX_SIZE <? size file
  then Alerted (lit "File is too large. Max 20MB.")
  else Selected file.

(** The title of [PlayerCard]: the name without its extension, or
    "Unknown Track" when nothing is left or there is no file. *)
Definition title (file : option File) : jsstring :=
  match file with
  | Some f => or_else (Some (strip_extension (name f))) (lit "Unknown Track")
  | None => lit "Unknown Track"
  end.

(** The type label of [PlayerCard], [toUpperCase] being any function:
    reading [toUpperCase] of a missing second part throws. *)
Definition type_label (toUpperCase : jsstring -> jsstring)
    (file : option File) : outcome jsstring :=
  match file with
  | Some f =>
      match nth_error (split SLASH (type_ f)) 1 with
      | Some subtype =>
          Returns (or_else (Some (toUpperCase subtype)) (lit "AUDIO"))
      | None => Throws TypeError
      end
  | None => Returns (lit "AUDIO")
  end.

End Components.
Import Components.

(** ** The service of the TypeScript variant *)

Module GeminiService.

(** What [ai.models.generateContent] ends with: an exception, or a
    response whose [text] is a string or [undefined]. *)
Inductive Generated : Type :=
| Raised (message : jsstring)
| Response (text : option jsstring).

Definition NO_LYRICS : jsstring := lit "[00:00.00] No lyrics generated.".
Definition FAILED : jsstring :=
  lit "Failed to transcribe audio. Please try again.".

(** [response.text?.trim()] *)
Definition trimmed (text : option jsstring) : option jsstring :=
  match text with
  | Some t => Some (trim t)
  | None => None
  end.

Definition transcribeAudio (g : Generated) : Settled :=
  match g with
  | Response text => Fulfilled (or_else (trimmed text) NO_LYRICS)
  | Raised _ => Failed FAILED
  end.

End GeminiService.

(** ** Vocabulary of the further statements *)



(** The lines joined by carriage return and line feed. *)
Fixpoint join_crlf (parts : list jsstring) : jsstring :=
  match parts with
  | [] => []
  | [p] => p
  | p :: rest => p ++ 13 :: LF :: join_crlf rest
  end.

(** A name ends with an extension: a dot and then [ext], which is not
    empty and holds no slash and no dot. *)
Definition is_extension (ext : jsstring) : bool :=
  match ext with
  | [] => false
  | _ :: _ => forallb not_slash_dot ext
  end.

Fixpoint has_extension (s : jsstring) : bool :=
  match s with
  | [] => false
  | c :: r => ((c =? DOT) && is_extension r) || has_extension r
  end.

(** The request [handleAnalyze] makes for a file and its base64 data. *)
Definition request_for (file : File) (base64Data : jsstring) : Request :=
  {| base64AudioData := base64Data;
     mimeType := or_else (Some (type_ file)) (lit "audio/mp3") |}.

(** A file for the examples. *)
Definition a_file : File :=
  {| name := lit "my song.final.mp3"; type_ := lit "audio/mpeg";
     size := 4194304 |}.

Definition a_browser : Browser :=
  {| network := twice_429;
     readAsDataURL := fun _ => Loaded (lit "data:audio/mpeg;base64,SUQzBAAAAAAA");
     createObjectURL := fun _ => lit "blob:1" |}.

Definition an_app : App :=
  {| appState := IDLE; transcript := None; audioUrl := Some (lit "blob:1");
     currentFile := Some a_file; errorMessage := None |}.

(** ** Facts about strings *)

Section StringFacts.

Lemma trimStart_all_space s :
  forallb is_space s = true -> trimStart s = [].
Proof.
  induction s as [|c r IH]; simpl; [reflexivity|].
  intros H. apply andb_prop in H as [Hc Hr]. rewrite Hc. auto.
Qed.

Lemma trimStart_decompose s :
  exists ws, s = ws ++ trimStart s /\ forallb is_space ws = true.
Proof.
  induction s as [|c r [ws [E W]]]; simpl.
  - exists []. auto.
  - destruct (is_space c) eqn:Hc.
    + exists (c :: ws). simpl. rewrite Hc, W. split; [f_equal; exact E|reflexivity].
    + exists []. auto.
Qed.

Lemma trimStart_head s c r :
  trimStart s = c :: r -> is_space c = false.
Proof.
  induction s as [|x s IH]; simpl; [discriminate|].
  destruct (is_space x) eqn:Hx; [exact IH|].
  intros E. injection E as -> _. exact Hx.
Qed.

Lemma trimStart_nonspace c r :
  is_space c = false -> trimStart (c :: r) = c :: r.
Proof. intros H. simpl. now rewrite H. Qed.

Lemma trimStart_idem s : trimStart (trimStart s) = trimStart s.
Proof.
  destruct (trimStart s) as [|c r] eqn:E; [reflexivity|].
  apply trimStart_nonspace. eapply trimStart_head; eauto.
Qed.

Lemma trimEnd_app x y :
  trimEnd (x ++ y) =
  match trimEnd y with [] => trimEnd x | _ :: _ => x ++ trimEnd y end.
Proof.
  induction x as [|c x IH]; simpl.
  - destruct (trimEnd y); reflexivity.
  - rewrite IH. destruct (trimEnd y) as [|d y'] eqn:Ey; [reflexivity|].
    destruct (x ++ d :: y') eqn:E; [|reflexivity].
    destruct x; discriminate.
Qed.

Lemma trimEnd_all_space s :
  forallb is_space s = true -> trimEnd s = [].
Proof.
  induction s as [|c r IH]; simpl; [reflexivity|].
  intros H. apply andb_prop in H as [Hc Hr]. rewrite (IH Hr), Hc. reflexivity.
Qed.

Lemma trimEnd_decompose s :
  exists ws, s = trimEnd s ++ ws /\ forallb is_space ws = true.
Proof.
  induction s as [|c r [ws [E W]]]; simpl.
  - exists []. auto.
  - destruct (trimEnd r) as [|d r'] eqn:Er.
    + destruct (is_space c) eqn:Hc.
      * exists (c :: ws). simpl in *. rewrite Hc, W. rewrite E at 1. auto.
      * exists ws. simpl in *. rewrite E at 1. auto.
    + exists ws. split; [|exact W]. simpl. f_equal. exact E.
Qed.

Lemma trimEnd_idem s : trimEnd (trimEnd s) = trimEnd s.
Proof.
  induction s as [|c r IH]; simpl; [reflexivity|].
  destruct (trimEnd r) as [|d r'] eqn:Er.
  - destruct (is_space c) eqn:Hc; simpl; [reflexivity|now rewrite Hc].
  - change (trimEnd ([c] ++ d :: r') = c :: d :: r').
    rewrite trimEnd_app, IH. reflexivity.
Qed.

Lemma trimEnd_snoc_nonspace s c :
  is_space c = false -> trimEnd (s ++ [c]) = s ++ [c].
Proof. intros H. rewrite trimEnd_app. simpl. now rewrite H. Qed.

Lemma trimEnd_trimStart s :
  trimEnd s = s -> trimEnd (trimStart s) = trimStart s.
Proof.
  intros H. destruct (trimStart_decompose s) as [ws [E W]].
  rewrite E in H at 1. rewrite trimEnd_app in H.
  destruct (trimEnd (trimStart s)) as [|d y] eqn:Ey.
  - rewrite (trimEnd_all_space _ W) in H.
    now rewrite <- H.
  - assert (E' : ws ++ d :: y = ws ++ trimStart s) by congruence.
    now apply app_inv_head in E'.
Qed.

Lemma trim_idem s : trim (trim s) = trim s.
Proof.
  unfold trim. rewrite trimEnd_trimStart by apply trimEnd_idem.
  apply trimStart_idem.
Qed.

Lemma trim_nil : trim [] = [].
Proof. reflexivity. Qed.

End StringFacts.

Section SplitJoin.
Variable sep : N.

Lemma split_not_nil s : split sep s <> [].
Proof.
  destruct s as [|c r]; simpl; [discriminate|].
  destruct (c =? sep); [discriminate|].
  destruct (split sep r); discriminate.
Qed.

Lemma split_free s : free_of sep s = true -> split sep s = [s].
Proof.
  induction s as [|c r IH]; simpl; [reflexivity|].
  intros H. apply andb_prop in H as [Hc Hr].
  apply negb_true_iff in Hc. rewrite Hc, (IH Hr). reflexivity.
Qed.

Lemma split_app_sep a b :
  free_of sep a = true -> split sep (a ++ sep :: b) = a :: split sep b.
Proof.
  induction a as [|c r IH]; simpl.
  - now rewrite N.eqb_refl.
  - intros H. apply andb_prop in H as [Hc Hr].
    apply negb_true_iff in Hc. rewrite Hc, (IH Hr). reflexivity.
Qed.

Lemma split_parts_free s : Forall (fun p => free_of sep p = true) (split sep s).
Proof.
  induction s as [|c r IH]; simpl.
  - constructor; [reflexivity|constructor].
  - destruct (c =? sep) eqn:Hc.
    + constructor; [reflexivity|exact IH].
    + destruct (split sep r) as [|h t]; inversion IH; subst.
      * constructor; [|constructor]. simpl. now rewrite Hc.
      * constructor; [|assumption]. simpl. rewrite Hc. simpl. assumption.
Qed.

Lemma split_join parts :
  parts <> [] ->
  Forall (fun p => free_of sep p = true) parts ->
  split sep (join sep parts) = parts.
Proof.
  induction parts as [|p rest IH]; [congruence|].
  intros _ H. inversion H as [|? ? Hp Hrest]; subst.
  destruct rest as [|q rest'].
  - simpl. apply split_free. exact Hp.
  - change (join sep (p :: q :: rest')) with (p ++ sep :: join sep (q :: rest')).
    rewrite split_app_sep by exact Hp.
    f_equal. apply IH; [discriminate|exact Hrest].
Qed.

Lemma join_split s : join sep (split sep s) = s.
Proof.
  induction s as [|c r IH]; simpl; [reflexivity|].
  destruct (c =? sep) eqn:Hc.
  - apply N.eqb_eq in Hc. subst c.
    destruct (split sep r) as [|h t] eqn:E.
    + now destruct (split_not_nil r).
    + simpl. f_equal. exact IH.
  - destruct (split sep r) as [|h t] eqn:E.
    + now destruct (split_not_nil r).
    + destruct t; simpl in *; now rewrite <- IH.
Qed.

Lemma free_of_app c a b :
  free_of c (a ++ b) = free_of c a && free_of c b.
Proof. apply forallb_app. Qed.
End SplitJoin.

Section DotStar.

Lemma dot_star_no_terminator s : no_terminator (dot_star s) = true.
Proof.
  induction s as [|c r IH]; simpl; [reflexivity|].
  destruct (is_line_terminator c) eqn:Hc; simpl; [reflexivity|].
  now rewrite Hc.
Qed.

Lemma dot_star_fixed s : no_terminator s = true -> dot_star s = s.
Proof.
  induction s as [|c r IH]; simpl; [reflexivity|].
  intros H. apply andb_prop in H as [Hc Hr].
  apply negb_true_iff in Hc. rewrite Hc, (IH Hr). reflexivity.
Qed.

Lemma no_terminator_app a b :
  no_terminator (a ++ b) = no_terminator a && no_terminator b.
Proof. apply forallb_app. Qed.

Lemma no_terminator_trimStart s :
  no_terminator s = true -> no_terminator (trimStart s) = true.
Proof.
  intros H. destruct (trimStart_decompose s) as [ws [E _]].
  rewrite E, no_terminator_app in H. now apply andb_prop in H.
Qed.

Lemma no_terminator_trimEnd s :
  no_terminator s = true -> no_terminator (trimEnd s) = true.
Proof.
  intros H. destruct (trimEnd_decompose s) as [ws [E _]].
  rewrite E, no_terminator_app in H. now apply andb_prop in H.
Qed.

Lemma no_terminator_trim s :
  no_terminator s = true -> no_terminator (trim s) = true.
Proof.
  intros H. now apply no_terminator_trimStart, no_terminator_trimEnd.
Qed.

Lemma no_terminator_free_LF s : no_terminator s = true -> free_of LF s = true.
Proof.
  induction s as [|c r IH]; simpl; [reflexivity|].
  intros H. apply andb_prop in H as [Hc Hr]. rewrite (IH Hr), andb_true_r.
  unfold is_line_terminator in Hc. unfold LF.
  destruct (c =? 10); [discriminate|reflexivity].
Qed.

End DotStar.

(** ** The shape of a timestamp tag *)

Section TagShape.

Lemma unit_inv c s m r :
  unit_ c s = Some (m, r) -> m = [c] /\ s = c :: r.
Proof.
  destruct s as [|x s']; simpl; [discriminate|].
  destruct (x =? c) eqn:E; [|discriminate].
  apply N.eqb_eq in E. subst x. intros H. now inversion H.
Qed.

Lemma digits_inv k : forall s m r,
  digits k s = Some (m, r) ->
  s = m ++ r /\ List.length m = k /\ all_digits m = true.
Proof.
  induction k as [|k IH]; intros s m r; simpl.
  - intros H. inversion H. auto.
  - destruct s as [|x s']; [discriminate|].
    destruct (is_digit x) eqn:Hx; [|discriminate].
    destruct (digits k s') as [[m' r']|] eqn:E; [|discriminate].
    intros H. inversion H; subst. destruct (IH _ _ _ E) as (-> & <- & Hd).
    simpl. now rewrite Hx, Hd.
Qed.

Lemma digits_hit m r :
  all_digits m = true -> digits (List.length m) (m ++ r) = Some (m, r).
Proof.
  induction m as [|x m IH]; simpl; [reflexivity|].
  intros H. apply andb_prop in H as [Hx Hm]. now rewrite Hx, (IH Hm).
Qed.

Lemma seq_inv p q s m r :
  seq_ p q s = Some (m, r) ->
  exists m1 r1 m2, p s = Some (m1, r1) /\ q r1 = Some (m2, r) /\ m = m1 ++ m2.
Proof.
  unfold seq_. destruct (p s) as [[m1 r1]|]; [|discriminate].
  destruct (q r1) as [[m2 r2]|] eqn:E; [|discriminate].
  intros H. inversion H; subst. now exists m1, r1, m2.
Qed.

Lemma seq_hit (p q : matcher) s m1 r1 m2 r2 :
  p s = Some (m1, r1) -> q r1 = Some (m2, r2) ->
  seq_ p q s = Some (m1 ++ m2, r2).
Proof. unfold seq_. now intros -> ->. Qed.

Lemma fraction_close_inv k s m r :
  fraction_close k s = Some (m, r) ->
  exists ds, m = DOT :: ds ++ [RBRACKET] /\ List.length ds = k /\
             all_digits ds = true /\ s = m ++ r.
Proof.
  unfold fraction_close. intros H.
  apply seq_inv in H as (m1 & r1 & m2 & H1 & H2 & ->).
  apply seq_inv in H2 as (ds & r2 & m3 & H2 & H3 & ->).
  apply unit_inv in H1 as [-> ->]. apply unit_inv in H3 as [-> ->].
  apply digits_inv in H2 as (-> & Hl & Hd).
  exists ds. simpl. rewrite <- app_assoc. auto.
Qed.

Lemma tag_tail_inv s m r :
  tag_tail s = Some (m, r) ->
  exists fr, is_fraction fr /\ m = fr ++ [RBRACKET] /\ s = m ++ r.
Proof.
  unfold tag_tail, alt_.
  destruct (fraction_close 3 s) as [x|] eqn:E3;
    [|destruct (fraction_close 2 s) as [x|] eqn:E2;
      [|destruct (fraction_close 1 s) as [x|] eqn:E1]];
    intros H; try (inversion H; subst x; clear H).
  1-3: match goal with
       | E : fraction_close _ _ = Some _ |- _ =>
           apply fraction_close_inv in E as (ds & -> & Hl & Hd & ->)
       end;
       exists (DOT :: ds); repeat split; auto;
       right; exists ds; repeat split; auto; lia.
  apply unit_inv in H as [-> ->]. exists []. repeat split. now left.
Qed.

Lemma tag_here_sound s t r :
  tag_here s = Some (t, r) -> is_tag t /\ s = t ++ r.
Proof.
  unfold tag_here. intros H.
  apply seq_inv in H as (m1 & r1 & m2 & H1 & H & ->).
  apply seq_inv in H as (mm & r2 & m3 & H2 & H & ->).
  apply seq_inv in H as (m4 & r3 & m5 & H3 & H & ->).
  apply seq_inv in H as (ss & r4 & m6 & H4 & H & ->).
  apply unit_inv in H1 as [-> ->]. apply unit_inv in H3 as [-> ->].
  apply digits_inv in H2 as (-> & Lm & Dm).
  apply digits_inv in H4 as (-> & Ls & Ds).
  apply tag_tail_inv in H as (fr & Hf & -> & ->).
  split.
  - exists mm, ss, fr. repeat split; auto.
  - simpl. f_equal. repeat (rewrite <- app_assoc; simpl). reflexivity.
Qed.

Lemma digit_facts c :
  is_digit c = true ->
  (c =? LBRACKET) = false /\ (c =? RBRACKET) = false /\
  (c =? COLON) = false /\ (c =? DOT) = false /\ (c =? LF) = false /\
  is_space c = false /\ is_line_terminator c = false.
Proof.
  unfold is_digit, is_space, is_line_terminator, LBRACKET, RBRACKET, COLON,
    DOT, LF.
  intros H. apply andb_prop in H as [H1 H2].
  apply N.leb_le in H1. apply N.leb_le in H2.
  repeat match goal with
         | |- _ /\ _ => split
         | |- context [?a =? ?b] => destruct (N.eqb_spec a b); [lia|]
         | |- context [?a <=? ?b] => destruct (N.leb_spec a b); [try lia|try lia]
         end; simpl; try reflexivity; try lia.
Qed.

Lemma tag_tail_hit fr r :
  is_fraction fr -> tag_tail (fr ++ RBRACKET :: r) = Some (fr ++ [RBRACKET], r).
Proof.
  intros [->|(ds & -> & Hd & Hl)]; [reflexivity|].
  destruct ds as [|d1 [|d2 [|d3 [|d4 ds]]]]; simpl in Hl; try lia;
    simpl in Hd;
    repeat match goal with
           | H : _ && _ = true |- _ => apply andb_prop in H as [? ?]
           end;
    unfold tag_tail, alt_, fraction_close, seq_; simpl;
    repeat match goal with
           | H : is_digit ?d = true |- context [is_digit ?d] => rewrite H
           end; reflexivity.
Qed.

Lemma tag_here_complete t r : is_tag t -> tag_here (t ++ r) = Some (t, r).
Proof.
  intros (mm & ss & fr & Lm & Dm & Ls & Ds & Hf & ->).
  change ((LBRACKET :: mm ++ COLON :: ss ++ fr ++ [RBRACKET]) ++ r)
    with (LBRACKET :: (mm ++ COLON :: ss ++ fr ++ [RBRACKET]) ++ r).
  repeat (rewrite <- app_assoc; cbn [app]).
  unfold tag_here.
  change (LBRACKET :: mm ++ COLON :: ss ++ fr ++ [RBRACKET])
    with ([LBRACKET] ++ mm ++ [COLON] ++ ss ++ fr ++ [RBRACKET]).
  apply seq_hit with (r1 := mm ++ COLON :: ss ++ fr ++ RBRACKET :: r);
    [reflexivity|].
  apply seq_hit with (r1 := COLON :: ss ++ fr ++ RBRACKET :: r);
    [rewrite <- Lm; now apply digits_hit|].
  apply seq_hit with (r1 := ss ++ fr ++ RBRACKET :: r); [reflexivity|].
  apply seq_hit with (r1 := fr ++ RBRACKET :: r);
    [rewrite <- Ls; now apply digits_hit|].
  now apply tag_tail_hit.
Qed.

End TagShape.

(** ** Finding the tag in a line *)

Section FindTag.

Lemma is_tag_bracketed t :
  is_tag t ->
  exists body, t = LBRACKET :: body ++ [RBRACKET] /\
               free_of LBRACKET (body ++ [RBRACKET]) = true /\
               no_terminator t = true /\ free_of LF t = true.
Proof.
  intros (mm & ss & fr & Lm & Dm & Ls & Ds & Hf & ->).
  assert (D : forall ds, all_digits ds = true ->
            free_of LBRACKET ds = true /\ no_terminator ds = true /\
            free_of LF ds = true).
  { induction ds as [|d ds IH]; simpl; [auto|].
    intros H. apply andb_prop in H as [Hd Hds].
    destruct (digit_facts d Hd) as (-> & _ & _ & _ & -> & _ & ->).
    simpl. auto. }
  destruct (D mm Dm) as (Fm & Tm & Nm). destruct (D ss Ds) as (Fs & Ts & Ns).
  assert (Ff : free_of LBRACKET fr = true /\ no_terminator fr = true /\
               free_of LF fr = true).
  { destruct Hf as [->|(ds & -> & Hd & _)]; [auto|].
    destruct (D ds Hd) as (? & ? & ?). simpl. auto. }
  destruct Ff as (Ff & Tf & Nf).
  exists (mm ++ COLON :: ss ++ fr). repeat split.
  - repeat (rewrite <- app_assoc; cbn [app]). reflexivity.
  - repeat (rewrite <- app_assoc; cbn [app]).
    change (free_of LBRACKET (mm ++ [COLON] ++ ss ++ fr ++ [RBRACKET]) = true).
    rewrite !free_of_app, Fm, Fs, Ff. reflexivity.
  - change (no_terminator ([LBRACKET] ++ mm ++ [COLON] ++ ss ++ fr ++ [RBRACKET])
            = true).
    rewrite !no_terminator_app, Tm, Ts, Tf. reflexivity.
  - change (free_of LF ([LBRACKET] ++ mm ++ [COLON] ++ ss ++ fr ++ [RBRACKET])
            = true).
    rewrite !free_of_app, Nm, Ns, Nf. reflexivity.
Qed.

Lemma find_tag_here s x : tag_here s = Some x -> find_tag s = Some x.
Proof.
  intros H. destruct s as [|c s]; [discriminate H|].
  cbn [find_tag]. now rewrite H.
Qed.

Lemma find_tag_None_cons c s :
  find_tag (c :: s) = None -> tag_here (c :: s) = None /\ find_tag s = None.
Proof.
  simpl. destruct (tag_here (c :: s)); [discriminate|auto].
Qed.

Lemma find_tag_None_suffix a b : find_tag (a ++ b) = None -> find_tag b = None.
Proof.
  induction a as [|c a IH]; [auto|].
  intros H. apply find_tag_None_cons in H as [_ H]. auto.
Qed.

Lemma find_tag_None_prefix a b : find_tag (a ++ b) = None -> find_tag a = None.
Proof.
  induction a as [|c a IH]; [reflexivity|].
  intros H. change ((c :: a) ++ b) with (c :: a ++ b) in H.
  apply find_tag_None_cons in H as [Hh Ht].
  simpl. destruct (tag_here (c :: a)) as [[t r]|] eqn:E; [|auto].
  apply tag_here_sound in E as [Ht' E].
  change (c :: a ++ b) with ((c :: a) ++ b) in Hh.
  rewrite E, <- app_assoc, (tag_here_complete _ _ Ht') in Hh. discriminate.
Qed.

(** [find_tag] is sound: what it returns is a tag of the input, and no tag
    lies before it. *)
Lemma find_tag_sound s t r :
  find_tag s = Some (t, r) ->
  exists pre, s = pre ++ t ++ r /\ is_tag t /\ find_tag pre = None.
Proof.
  induction s as [|c s IH].
  - simpl. discriminate.
  - simpl. destruct (tag_here (c :: s)) as [x|] eqn:E.
    + intros H. inversion H; subst x.
      apply tag_here_sound in E as [Ht E]. exists []. auto.
    + intros H. destruct (IH H) as (pre & -> & Ht & Hp).
      exists (c :: pre). repeat split; auto.
      simpl. rewrite Hp.
      destruct (tag_here (c :: pre)) as [[t' r']|] eqn:E'; [|reflexivity].
      apply tag_here_sound in E' as [Ht' E'].
      change (c :: pre ++ t ++ r) with ((c :: pre) ++ t ++ r) in E.
      rewrite E', <- app_assoc, (tag_here_complete _ _ Ht') in E. discriminate.
Qed.

(** A tag cannot start before another tag and run into it. *)
Lemma tag_here_straddle b t r :
  b <> [] -> is_tag t -> find_tag b = None -> tag_here (b ++ t ++ r) = None.
Proof.
  intros Hb Ht Hn.
  destruct (tag_here (b ++ t ++ r)) as [[t' r']|] eqn:E; [|reflexivity].
  exfalso. apply tag_here_sound in E as [Ht' E].
  apply app_eq_app in E as [l [[E1 E2]|[E1 E2]]].
  - (* the match ends inside [b] *)
    subst b. destruct t' as [|c t'].
    + destruct Ht' as (? & ? & ? & _ & _ & _ & _ & _ & ?); discriminate.
    + apply find_tag_None_prefix in Hn.
      rewrite <- (app_nil_r (c :: t')), (find_tag_here _ _
        (tag_here_complete _ [] Ht')) in Hn. discriminate.
  - (* the match runs past [b], over the bracket that opens [t] *)
    destruct l as [|x l].
    + rewrite app_nil_r in E1. subst t'.
      destruct b as [|c b]; [congruence|].
      rewrite <- (app_nil_r (c :: b)), (find_tag_here _ _
        (tag_here_complete _ [] Ht')) in Hn. discriminate.
    + destruct (is_tag_bracketed _ Ht) as (body & -> & _).
      destruct (is_tag_bracketed _ Ht') as (body' & E' & F' & _).
      simpl in E2. injection E2 as <- _.
      destruct b as [|c b]; [congruence|].
      rewrite E1 in E'. simpl in E'. injection E' as _ E'.
      rewrite <- E', free_of_app in F'. simpl in F'.
      rewrite andb_false_r in F'. discriminate.
Qed.

(** [find_tag] is complete: the leftmost tag is found. *)
Lemma find_tag_complete pre t r :
  is_tag t -> find_tag pre = None -> find_tag (pre ++ t ++ r) = Some (t, r).
Proof.
  intros Ht. induction pre as [|c pre IH]; intros Hn.
  - simpl. apply find_tag_here. now apply tag_here_complete.
  - change ((c :: pre) ++ t ++ r) with (c :: pre ++ t ++ r).
    simpl. change (c :: pre ++ t ++ r) with ((c :: pre) ++ t ++ r).
    rewrite tag_here_straddle by (auto; discriminate).
    apply IH. now apply find_tag_None_cons in Hn.
Qed.

End FindTag.

(** ** The timestamp of a tag *)

Section TagSeconds.

Lemma digits_value_decimal ds acc :
  all_digits ds = true ->
  digits_value acc ds = fold_left (fun a c => 10 * a + (c - 48)) ds acc.
Proof.
  revert acc. induction ds as [|d ds IH]; intros acc; simpl; [reflexivity|].
  intros H. apply andb_prop in H as [Hd Hds]. rewrite Hd. now apply IH.
Qed.

Lemma parseInt10_digits ds :
  ds <> [] -> all_digits ds = true -> parseInt10 ds = Some (decimal ds).
Proof.
  destruct ds as [|d ds]; [congruence|]. intros _ H.
  unfold parseInt10. pose proof H as H'. simpl in H'.
  apply andb_prop in H' as [Hd _]. rewrite Hd.
  now rewrite digits_value_decimal.
Qed.

Lemma all_digits_free c ds :
  is_digit c = false -> all_digits ds = true -> free_of c ds = true.
Proof.
  intros Hc. induction ds as [|d ds IH]; simpl; [reflexivity|].
  intros H. apply andb_prop in H as [Hd Hds]. rewrite (IH Hds), andb_true_r.
  destruct (N.eqb_spec d c); [congruence|reflexivity].
Qed.

Lemma slice_tag body :
  slice_1_m1 (LBRACKET :: body ++ [RBRACKET]) = body.
Proof. unfold slice_1_m1. simpl. apply removelast_last. Qed.

Lemma timeInSeconds_tag mm ss fr :
  List.length mm = 2%nat -> all_digits mm = true ->
  List.length ss = 2%nat -> all_digits ss = true ->
  is_fraction fr ->
  timeInSeconds (mm ++ COLON :: ss ++ fr) = Returns (tag_seconds mm ss fr).
Proof.
  intros Lm Dm Ls Ds Hf. unfold timeInSeconds, tag_seconds.
  assert (Fc : free_of COLON (ss ++ fr) = true).
  { rewrite free_of_app, (all_digits_free COLON ss) by (auto; reflexivity).
    destruct Hf as [->|(ds & -> & Hd & _)]; [reflexivity|].
    simpl. now apply all_digits_free. }
  rewrite split_app_sep by (apply all_digits_free; auto; reflexivity).
  rewrite (split_free _ _ Fc).
  assert (Nm : mm <> []) by (destruct mm; [discriminate|congruence]).
  assert (Ns : ss <> []) by (destruct ss; [discriminate|congruence]).
  destruct Hf as [->|(ds & -> & Hd & Hl)].
  - rewrite app_nil_r, split_free by (apply all_digits_free; auto; reflexivity).
    cbn [hd_error fraction_digits].
    rewrite !parseInt10_digits by auto. reflexivity.
  - rewrite split_app_sep by (apply all_digits_free; auto; reflexivity).
    rewrite split_free by (apply all_digits_free; auto; reflexivity).
    destruct ds as [|d ds]; [simpl in Hl; lia|].
    cbn [hd_error fraction_digits or_zero].
    rewrite !parseInt10_digits by (auto; discriminate). reflexivity.
Qed.

End TagSeconds.

(** ** What [parse_line] returns *)

Section ParseLine.

Lemma timeInSeconds_is_tag t :
  is_tag t -> timeInSeconds (slice_1_m1 t) = Returns (seconds_of_tag t).
Proof.
  intros (mm & ss & fr & Lm & Dm & Ls & Ds & Hf & ->).
  unfold seconds_of_tag.
  replace (LBRACKET :: mm ++ COLON :: ss ++ fr ++ [RBRACKET])
    with (LBRACKET :: (mm ++ COLON :: ss ++ fr) ++ [RBRACKET])
    by (repeat (rewrite <- app_assoc; cbn [app]); reflexivity).
  rewrite slice_tag, timeInSeconds_tag by auto. reflexivity.
Qed.

(** The callback never throws. *)
Lemma parse_line_total line : parse_line line = Returns (line_of line).
Proof.
  unfold line_of, parse_line, match_lineRegex.
  destruct (find_tag (trim line)) as [[t r]|] eqn:E; [|reflexivity].
  apply find_tag_sound in E as (pre & _ & Ht & _).
  rewrite (timeInSeconds_is_tag _ Ht). reflexivity.
Qed.

Lemma line_of_found line t r :
  find_tag (trim line) = Some (t, r) ->
  line_of line = Some {| timestamp := seconds_of_tag t;
                         text := trim (dot_star r); lrcTime := t |}.
Proof.
  intros E. unfold line_of, parse_line, match_lineRegex. rewrite E.
  apply find_tag_sound in E as (pre & _ & Ht & _).
  rewrite (timeInSeconds_is_tag _ Ht). reflexivity.
Qed.

Lemma line_of_None line :
  find_tag (trim line) = None -> line_of line = None.
Proof.
  intros E. unfold line_of, parse_line, match_lineRegex. now rewrite E.
Qed.

Lemma line_of_inv line l :
  line_of line = Some l ->
  exists r, find_tag (trim line) = Some (lrcTime l, r) /\
            is_tag (lrcTime l) /\
            timestamp l = seconds_of_tag (lrcTime l) /\
            text l = trim (dot_star r).
Proof.
  destruct (find_tag (trim line)) as [[t r]|] eqn:E.
  - rewrite (line_of_found _ _ _ E). intros H. inversion H; subst; simpl.
    exists r. repeat split; auto.
    apply find_tag_sound in E as (pre & _ & Ht & _). exact Ht.
  - rewrite (line_of_None _ E). discriminate.
Qed.

Lemma trimStart_app_nonspace a c b :
  is_space c = false -> trimStart (a ++ c :: b) = trimStart a ++ c :: b.
Proof.
  intros Hc. induction a as [|x a IH]; simpl; [now rewrite Hc|].
  destruct (is_space x); [exact IH|reflexivity].
Qed.

(** Trimming a line around its tag. *)
Lemma trim_around_tag pre t rest :
  is_tag t -> trim (pre ++ t ++ rest) = trimStart pre ++ t ++ trimEnd rest.
Proof.
  intros Ht. destruct (is_tag_bracketed _ Ht) as (body & -> & _).
  unfold trim.
  assert (E : trimEnd (pre ++ (LBRACKET :: body ++ [RBRACKET]) ++ rest)
              = pre ++ (LBRACKET :: body ++ [RBRACKET]) ++ trimEnd rest).
  { rewrite app_assoc, trimEnd_app.
    destruct (trimEnd rest) as [|d y] eqn:Er.
    - rewrite app_nil_r.
      change (LBRACKET :: body ++ [RBRACKET])
        with ((LBRACKET :: body) ++ [RBRACKET]).
      rewrite app_assoc. now apply trimEnd_snoc_nonspace.
    - now rewrite <- app_assoc. }
  rewrite E. cbn [app]. now apply trimStart_app_nonspace.
Qed.

(** A line with a tag, whatever stands before the first tag. *)
Lemma line_of_tagged pre t rest :
  is_tag t -> find_tag pre = None ->
  line_of (pre ++ t ++ rest) =
  Some {| timestamp := seconds_of_tag t;
          text := trim (dot_star (trimEnd rest)); lrcTime := t |}.
Proof.
  intros Ht Hn. apply line_of_found.
  rewrite trim_around_tag by exact Ht.
  apply find_tag_complete; [exact Ht|].
  destruct (trimStart_decompose pre) as (ws & E & _).
  rewrite E in Hn. now apply find_tag_None_suffix in Hn.
Qed.

Lemma trimEnd_trim s : trimEnd (trim s) = trim s.
Proof. unfold trim. apply trimEnd_trimStart, trimEnd_idem. Qed.

(** Round trip of one line: the rendered line parses to the same object. *)
Lemma line_of_render line l :
  line_of line = Some l -> line_of (lrcTime l ++ text l) = Some l.
Proof.
  intros H. apply line_of_inv in H as (r & _ & Ht & Hs & Hx).
  change (lrcTime l ++ text l) with ([] ++ lrcTime l ++ text l).
  rewrite (line_of_tagged [] _ _ Ht eq_refl).
  destruct l as [ts tx tg]; simpl in *. subst ts tx.
  rewrite trimEnd_trim, dot_star_fixed, trim_idem; [reflexivity|].
  apply no_terminator_trim, dot_star_no_terminator.
Qed.

Lemma line_of_render_free line l :
  line_of line = Some l -> free_of LF (lrcTime l ++ text l) = true.
Proof.
  intros H. apply line_of_inv in H as (r & _ & Ht & _ & Hx).
  destruct (is_tag_bracketed _ Ht) as (body & _ & _ & _ & F).
  rewrite free_of_app, F, Hx. simpl.
  apply no_terminator_free_LF, no_terminator_trim, dot_star_no_terminator.
Qed.

End ParseLine.

(** ** The stable sort *)


Section SortFacts.
Context {A : Type} (key : A -> Q).

Lemma by_key_le a b : Qle_bool (by_key key a b) 0 = true <-> key_le key a b.
Proof.
  unfold by_key, key_le. rewrite Qle_bool_iff. split; intros H; lra.
Qed.

Lemma insert_perm x l : Permutation (insert (by_key key) x l) (x :: l).
Proof.
  induction l as [|y r IH]; simpl; [reflexivity|].
  destruct (Qle_bool (by_key key x y) 0); [reflexivity|].
  rewrite IH. apply perm_swap.
Qed.

Lemma sort_perm l : Permutation (sort (by_key key) l) l.
Proof.
  induction l as [|x l IH]; simpl; [reflexivity|].
  rewrite insert_perm. now constructor.
Qed.

Lemma insert_sorted x l :
  StronglySorted (key_le key) l -> StronglySorted (key_le key) (insert (by_key key) x l).
Proof.
  induction 1 as [|y r Hs IH Hy]; simpl.
  - repeat constructor.
  - destruct (Qle_bool (by_key key x y) 0) eqn:E.
    + apply by_key_le in E. constructor; [now constructor|].
      constructor; [exact E|].
      eapply Forall_impl; [|exact Hy]. unfold key_le in *. intros; lra.
    + assert (Hyx : key_le key y x).
      { destruct (Qlt_le_dec (key y) (key x)) as [L|L];
          [unfold key_le; lra|].
        apply by_key_le in L. congruence. }
      constructor; [exact IH|].
      eapply Permutation_Forall; [symmetry; apply insert_perm|].
      now constructor.
Qed.

Lemma sort_sorted l : StronglySorted (key_le key) (sort (by_key key) l).
Proof.
  induction l as [|x l IH]; simpl; [constructor|now apply insert_sorted].
Qed.

Lemma sort_fixed l : StronglySorted (key_le key) l -> sort (by_key key) l = l.
Proof.
  induction 1 as [|x l Hs IH Hx]; simpl; [reflexivity|].
  rewrite IH. destruct l as [|y r]; [reflexivity|].
  simpl. inversion Hx as [|? ? Hxy _]; subst.
  apply by_key_le in Hxy. now rewrite Hxy.
Qed.

Lemma sort_idem l : sort (by_key key) (sort (by_key key) l) = sort (by_key key) l.
Proof. apply sort_fixed, sort_sorted. Qed.

(** Stability: among the elements of one key, the order is kept. *)
Lemma insert_stable t x l :
  filter (at_key key t) (insert (by_key key) x l) = filter (at_key key t) (x :: l).
Proof.
  induction l as [|y r IH]; [reflexivity|].
  cbn [insert]. destruct (Qle_bool (by_key key x y) 0) eqn:E; [reflexivity|].
  cbn [filter] in *. rewrite IH.
  destruct (at_key key t x) eqn:Ex; [|reflexivity].
  destruct (at_key key t y) eqn:Ey; [|reflexivity].
  unfold at_key in *. apply Qeq_bool_iff in Ex. apply Qeq_bool_iff in Ey.
  assert (L : key_le key x y) by (unfold key_le; lra).
  apply by_key_le in L. congruence.
Qed.

Lemma sort_stable t l :
  filter (at_key key t) (sort (by_key key) l) = filter (at_key key t) l.
Proof.
  induction l as [|x l IH]; [reflexivity|].
  cbn [sort fold_right]. rewrite insert_stable. cbn [filter].
  fold (sort (by_key key) l). now rewrite IH.
Qed.
End SortFacts.

(** Sorting the images is sorting by the key of the image. *)
Lemma sort_map {A B} (f : A -> B) (cmp : B -> B -> Q) l :
  sort cmp (List.map f l) = List.map f (sort (fun a b => cmp (f a) (f b)) l).
Proof.
  induction l as [|x l IH]; [reflexivity|].
  cbn [List.map sort fold_right]. fold (sort cmp (List.map f l)).
  fold (sort (fun a b => cmp (f a) (f b)) l). rewrite IH.
  generalize (sort (fun a b => cmp (f a) (f b)) l) as s.
  induction s as [|y s IHs]; [reflexivity|].
  cbn [List.map insert]. destruct (Qle_bool (cmp (f x) (f y)) 0);
    [reflexivity|]. cbn [List.map]. now rewrite IHs.
Qed.

(** ** What [parseLrc] returns *)

Section ParseLrcFacts.

Lemma map_outcome_total {A B} (f : A -> outcome B) (g : A -> B) xs :
  (forall x, f x = Returns (g x)) ->
  map_outcome f xs = Returns (List.map g xs).
Proof.
  intros H. induction xs as [|x r IH]; simpl; [reflexivity|].
  now rewrite H, IH.
Qed.

Lemma filter_Boolean_Some {A} (xs : list A) :
  filter_Boolean (List.map Some xs) = xs.
Proof. induction xs as [|x r IH]; simpl; [reflexivity|now rewrite IH]. Qed.

Lemma filter_Boolean_In {A B} (f : A -> option B) xs y :
  In y (filter_Boolean (List.map f xs)) <-> exists x, In x xs /\ f x = Some y.
Proof.
  induction xs as [|x r IH]; simpl.
  - split; [tauto|intros (? & [] & _)].
  - destruct (f x) as [z|] eqn:E; simpl; rewrite IH; split.
    + intros [->|(x' & Hin & Hx)]; [exists x; auto|exists x'; auto].
    + intros (x' & [->|Hin] & Hx); [left; congruence|right; exists x'; auto].
    + intros (x' & Hin & Hx). exists x'; auto.
    + intros (x' & [->|Hin] & Hx); [congruence|exists x'; auto].
Qed.

Lemma parseLrc_Some s :
  parseLrc (Some s) = Returns (sort compare_lines (parsed_lines s)).
Proof.
  destruct s as [|c r]; [reflexivity|].
  unfold parseLrc, parsed_lines.
  now rewrite (map_outcome_total parse_line line_of _ parse_line_total).
Qed.

Lemma parseLrc_eq T :
  parseLrc T = Returns (sort compare_lines (lines_in_order T)).
Proof. destruct T as [s|]; [apply parseLrc_Some|reflexivity]. Qed.

Lemma parsed_line_origin s l :
  In l (parsed_lines s) -> exists line, line_of line = Some l.
Proof.
  unfold parsed_lines. rewrite filter_Boolean_In.
  intros (line & _ & H). now exists line.
Qed.

Lemma sorted_line_origin T l :
  In l (sort compare_lines (lines_in_order T)) ->
  exists line, line_of line = Some l.
Proof.
  intros H.
  apply (Permutation_in _ (sort_perm timestamp (lines_in_order T))) in H.
  destruct T as [s|]; [now apply parsed_line_origin in H|destruct H].
Qed.

(** Parsing what [formatLrc] wrote gives the same line objects, sorted. *)
Lemma parse_rendered doc :
  Forall (fun l => exists line, line_of line = Some l) doc ->
  parsed_lines (formatLrc doc) = doc.
Proof.
  intros H. destruct doc as [|l0 doc0]; [reflexivity|].
  unfold parsed_lines, formatLrc. rewrite split_join.
  - rewrite map_map. rewrite <- (filter_Boolean_Some (l0 :: doc0)) at 2.
    f_equal. apply map_ext_in. intros l Hl.
    rewrite Forall_forall in H. destruct (H l Hl) as (line & E).
    now apply line_of_render in E.
  - discriminate.
  - apply Forall_map. eapply Forall_impl; [|exact H].
    intros l (line & E). now apply line_of_render_free in E.
Qed.

(** A tag alone is a line with the empty text. *)
Lemma parse_tag_alone t :
  is_tag t ->
  parseLrc (Some t) =
  Returns [{| timestamp := seconds_of_tag t; text := []; lrcTime := t |}].
Proof.
  intros Ht. rewrite parseLrc_Some. unfold parsed_lines.
  destruct (is_tag_bracketed _ Ht) as (body & _ & _ & _ & F).
  rewrite (split_free _ _ F). cbn [List.map].
  rewrite <- (app_nil_r t) at 1. change (t ++ []) with ([] ++ t ++ []).
  now rewrite (line_of_tagged [] t [] Ht eq_refl).
Qed.

(** Trimming neither hides nor makes a tag. *)
Lemma find_tag_trim line :
  find_tag (trim line) = None <-> find_tag line = None.
Proof.
  split; intros H.
  - destruct (find_tag line) as [[t r]|] eqn:E; [|reflexivity].
    apply find_tag_sound in E as (pre & -> & Ht & Hp).
    rewrite trim_around_tag in H by exact Ht.
    rewrite find_tag_complete in H; [discriminate|exact Ht|].
    destruct (trimStart_decompose pre) as (ws & E & _).
    rewrite E in Hp. now apply find_tag_None_suffix in Hp.
  - unfold trim.
    destruct (trimEnd_decompose line) as (ws & E & _).
    destruct (trimStart_decompose (trimEnd line)) as (ws' & E' & _).
    rewrite E in H. apply find_tag_None_prefix in H.
    rewrite E' in H. now apply find_tag_None_suffix in H.
Qed.

Lemma line_of_has_tag line :
  has_tag line = false <-> line_of line = None.
Proof.
  unfold has_tag. split.
  - intros H. apply line_of_None. apply (proj2 (find_tag_trim line)).
    destruct (find_tag line); [discriminate|reflexivity].
  - intros H. destruct (find_tag line) as [[t r]|] eqn:E; [|reflexivity].
    destruct (find_tag (trim line)) as [[t' r']|] eqn:E'.
    + rewrite (line_of_found _ _ _ E') in H. discriminate.
    + apply (proj1 (find_tag_trim line)) in E'. congruence.
Qed.

(** [has_tag] says that a tag occurs in the line. *)
Lemma has_tag_spec line :
  has_tag line = true <-> exists a t b, line = a ++ t ++ b /\ is_tag t.
Proof.
  unfold has_tag. split.
  - destruct (find_tag line) as [[t r]|] eqn:E; [|discriminate].
    intros _. apply find_tag_sound in E as (pre & -> & Ht & _).
    now exists pre, t, r.
  - intros (a & t & b & -> & Ht).
    destruct (find_tag (a ++ t ++ b)) eqn:E; [reflexivity|].
    apply find_tag_None_suffix in E.
    rewrite (find_tag_here _ _ (tag_here_complete _ b Ht)) in E. discriminate.
Qed.

Lemma filter_Boolean_filter {A B} (f : A -> option B) (p : A -> bool) xs :
  (forall x, p x = false -> f x = None) ->
  filter_Boolean (List.map f (filter p xs)) = filter_Boolean (List.map f xs).
Proof.
  intros H. induction xs as [|x r IH]; simpl; [reflexivity|].
  destruct (p x) eqn:E; simpl.
  - destruct (f x); now rewrite IH.
  - now rewrite (H x E).
Qed.

(** Taking the lines without a tag out of a text changes nothing. *)
Lemma parsed_lines_tagged_only s :
  parsed_lines (join LF (filter has_tag (split LF s))) = parsed_lines s.
Proof.
  unfold parsed_lines at 2.
  rewrite <- (filter_Boolean_filter line_of has_tag)
    by (intros x; apply line_of_has_tag).
  destruct (filter has_tag (split LF s)) as [|l0 ls] eqn:E; [reflexivity|].
  unfold parsed_lines. rewrite split_join; [reflexivity|discriminate|].
  rewrite <- E. apply incl_Forall with (l1 := split LF s);
    [intros x Hx; now apply filter_In in Hx|apply split_parts_free].
Qed.

(** The raw lines with a tag stand for the line objects. *)
Lemma parsed_lines_of_tagged s :
  parsed_lines s =
  List.map the_line (filter has_tag (split LF s)).
Proof.
  unfold parsed_lines, the_line. induction (split LF s) as [|x r IH]; [reflexivity|].
  cbn [List.map filter filter_Boolean].
  destruct (line_of x) as [l|] eqn:E.
  - destruct (has_tag x) eqn:Hx.
    + cbn [List.map]. now rewrite E, IH.
    + apply line_of_has_tag in Hx. congruence.
  - apply line_of_has_tag in E. now rewrite E.
Qed.

End ParseLrcFacts.

(** ** Tags written from their parts *)

Section MakeTag.

Lemma well_formed_inv mm ss fd :
  well_formed mm ss fd = true ->
  List.length mm = 2%nat /\ all_digits mm = true /\
  List.length ss = 2%nat /\ all_digits ss = true /\
  is_fraction (fraction_text fd).
Proof.
  unfold well_formed. intros H.
  repeat match goal with
         | H : _ && _ = true |- _ => apply andb_prop in H as [? ?]
         end.
  repeat match goal with
         | H : Nat.eqb _ _ = true |- _ => apply Nat.eqb_eq in H
         end.
  repeat split; auto.
  destruct fd as [ds|]; [|now left].
  repeat match goal with
         | H : _ && _ = true |- _ => apply andb_prop in H as [? ?]
         end.
  right. exists ds. repeat split; auto; now apply Nat.leb_le.
Qed.

Lemma make_tag_is_tag mm ss fd :
  well_formed mm ss fd = true -> is_tag (make_tag mm ss fd).
Proof.
  intros H. apply well_formed_inv in H as (? & ? & ? & ? & ?).
  now exists mm, ss, (fraction_text fd).
Qed.

Lemma make_tag_seconds mm ss fd :
  well_formed mm ss fd = true ->
  (seconds_of_tag (make_tag mm ss fd) == seconds mm ss fd)%Q.
Proof.
  intros H. pose proof H as W.
  apply well_formed_inv in H as (Lm & Dm & Ls & Ds & Hf).
  unfold seconds_of_tag, make_tag.
  replace (LBRACKET :: mm ++ COLON :: ss ++ fraction_text fd ++ [RBRACKET])
    with (LBRACKET :: (mm ++ COLON :: ss ++ fraction_text fd) ++ [RBRACKET])
    by (repeat (rewrite <- app_assoc; cbn [app]); reflexivity).
  rewrite slice_tag, timeInSeconds_tag by auto.
  unfold tag_seconds, seconds. destruct fd as [ds|].
  - destruct ds as [|d ds].
    + unfold well_formed in W. simpl in W. now rewrite !andb_false_r in W.
    + cbn [fraction_text fraction_digits or_zero divisor].
      unfold length_is. destruct (Nat.eqb (List.length (d :: ds)) 3);
        reflexivity.
  - cbn [fraction_text fraction_digits or_zero divisor].
    apply Qplus_inj_l. reflexivity.
Qed.

Lemma is_tag_make_tag t :
  is_tag t ->
  exists mm ss fd, well_formed mm ss fd = true /\ t = make_tag mm ss fd.
Proof.
  intros (mm & ss & fr & Lm & Dm & Ls & Ds & Hf & ->).
  destruct Hf as [->|(ds & -> & Hd & Hl)].
  - exists mm, ss, None. split; [|reflexivity].
    unfold well_formed. now rewrite Lm, Dm, Ls, Ds.
  - exists mm, ss, (Some ds). split; [|reflexivity].
    destruct Hl as [L1 L2]. apply Nat.leb_le in L1. apply Nat.leb_le in L2.
    unfold well_formed. now rewrite L1, L2, Lm, Dm, Ls, Ds, Hd.
Qed.

Lemma line_of_make_tag pre mm ss fd rest :
  well_formed mm ss fd = true -> has_tag pre = false ->
  exists l,
    line_of (pre ++ make_tag mm ss fd ++ rest) = Some l /\
    lrcTime l = make_tag mm ss fd /\
    (timestamp l == seconds mm ss fd)%Q /\
    text l = trim (dot_star (trimEnd rest)).
Proof.
  intros W Hp. pose proof (make_tag_is_tag _ _ _ W) as Ht.
  unfold has_tag in Hp.
  destruct (find_tag pre) eqn:Ep; [discriminate|].
  eexists. split; [apply (line_of_tagged pre _ rest Ht Ep)|].
  split; [reflexivity|]. split; [|reflexivity].
  cbn [timestamp]. now apply make_tag_seconds.
Qed.

Lemma trim_line_rest rest :
  no_terminator (trimEnd rest) = true ->
  trim (dot_star (trimEnd rest)) = trim rest.
Proof.
  intros H. rewrite dot_star_fixed by exact H.
  unfold trim. now rewrite trimEnd_idem.
Qed.

End MakeTag.

(** ** Lines cut at their first tag *)

Section FirstTags.

Lemma Qle_bool_ext (a b : Q) : (a == b)%Q -> Qle_bool a 0 = Qle_bool b 0.
Proof.
  intros H. destruct (Qle_bool a 0) eqn:Ea, (Qle_bool b 0) eqn:Eb;
    try reflexivity; exfalso.
  - apply Qle_bool_iff in Ea. assert (Hb : (b <= 0)%Q) by lra.
    apply Qle_bool_iff in Hb. congruence.
  - apply Qle_bool_iff in Eb. assert (Ha : (a <= 0)%Q) by lra.
    apply Qle_bool_iff in Ha. congruence.
Qed.

Lemma insert_In {A} (cmp : A -> A -> Q) x y l :
  In y (insert cmp x l) -> y = x \/ In y l.
Proof.
  induction l as [|z l IH]; simpl.
  - intros [H|[]]; auto.
  - destruct (Qle_bool (cmp x z) 0); simpl.
    + intros [H|[H|H]]; auto.
    + intros [H|H]; auto. destruct (IH H); auto.
Qed.

Lemma sort_In {A} (cmp : A -> A -> Q) y l : In y (sort cmp l) -> In y l.
Proof.
  induction l as [|x l IH]; [auto|].
  cbn [sort fold_right]. fold (sort cmp l). intros H.
  apply insert_In in H as [->|H]; [now left|right; auto].
Qed.

Lemma insert_ext {A} (c1 c2 : A -> A -> Q) x l :
  (forall y, In y l -> Qle_bool (c1 x y) 0 = Qle_bool (c2 x y) 0) ->
  insert c1 x l = insert c2 x l.
Proof.
  induction l as [|z l IH]; [reflexivity|]. intros H. cbn [insert].
  rewrite (H z (or_introl eq_refl)).
  destruct (Qle_bool (c2 x z) 0); [reflexivity|].
  f_equal. apply IH. intros y Hy. apply H. now right.
Qed.

(** The sort depends on the signs of the comparator only. *)
Lemma sort_ext {A} (c1 c2 : A -> A -> Q) l :
  (forall a b, In a l -> In b l ->
               Qle_bool (c1 a b) 0 = Qle_bool (c2 a b) 0) ->
  sort c1 l = sort c2 l.
Proof.
  induction l as [|x l IH]; [reflexivity|]. intros H.
  cbn [sort fold_right]. fold (sort c1 l). fold (sort c2 l).
  rewrite IH by (intros a b Ha Hb; apply H; now right).
  apply insert_ext. intros y Hy. apply H; [now left|].
  right. now apply sort_In in Hy.
Qed.

Lemma no_tag_in_lead e : first_tag e -> find_tag (lead e) = None.
Proof.
  intros [_ H]. destruct (find_tag (lead e)) eqn:E; [|reflexivity].
  exfalso. apply H, has_tag_spec. unfold has_tag. now rewrite E.
Qed.

Lemma line_of_first_tag e :
  first_tag e -> line_of (raw_line e) = Some (line_object e).
Proof.
  intros H. apply line_of_tagged; [|now apply no_tag_in_lead].
  apply make_tag_is_tag, H.
Qed.

(** Every line in which a tag occurs can be cut at its first tag. *)
Lemma cut_at_first_tags ls :
  exists es,
    filter has_tag ls = List.map raw_line es /\
    kept contains_tag ls (List.map raw_line es) /\
    Forall first_tag es.
Proof.
  induction ls as [|x ls (es & E & K & F)].
  - exists []. repeat split; constructor.
  - cbn [filter]. destruct (has_tag x) eqn:Hx.
    + unfold has_tag in Hx.
      destruct (find_tag x) as [[t r]|] eqn:Ex; [|discriminate].
      apply find_tag_sound in Ex as (pre & -> & Ht & Hn).
      destruct (is_tag_make_tag t Ht) as (mm & ss & fd & W & ->).
      exists ({| lead := pre; mins := mm; secs := ss; frac := fd;
                 trail := r |} :: es).
      cbn [List.map]. unfold raw_line at 1 3, tag_of. cbn [lead mins secs frac trail].
      split; [now rewrite E|]. split.
      * apply kept_yes; [|exact K]. now exists pre, (make_tag mm ss fd), r.
      * constructor; [|exact F]. split; [exact W|].
        cbn [lead]. intros C. apply has_tag_spec in C. unfold has_tag in C.
        rewrite Hn in C. discriminate.
    + exists es. split; [exact E|]. split; [|exact F].
      apply kept_no; [|exact K]. intros C. apply has_tag_spec in C. congruence.
Qed.

(** The line objects of a text are those of its lines cut at their first
    tag, sorted by the time of the tag. *)
Lemma parse_at_first_tags s :
  exists es,
    kept contains_tag (split LF s) (List.map raw_line es) /\
    Forall first_tag es /\
    sort compare_lines (parsed_lines s)
    = List.map line_object (sort (by_key time_of) es).
Proof.
  destruct (cut_at_first_tags (split LF s)) as (es & E & K & F).
  exists es. split; [exact K|]. split; [exact F|].
  rewrite parsed_lines_of_tagged, E, map_map.
  rewrite (map_ext_in (fun e => the_line (raw_line e)) line_object).
  - rewrite sort_map. f_equal. apply sort_ext. intros a b Ha Hb.
    rewrite Forall_forall in F.
    apply Qle_bool_ext. unfold compare_lines, by_key, line_object, time_of.
    cbn [timestamp]. unfold tag_of.
    rewrite (make_tag_seconds _ _ _ (proj1 (F a Ha))).
    rewrite (make_tag_seconds _ _ _ (proj1 (F b Hb))). reflexivity.
  - intros e He. rewrite Forall_forall in F. unfold the_line.
    now rewrite (line_of_first_tag e (F e He)).
Qed.

Lemma written_free_LF e : first_tag e -> free_of LF (written e) = true.
Proof.
  intros [W _]. unfold written. rewrite free_of_app.
  destruct (is_tag_bracketed _ (make_tag_is_tag _ _ _ W)) as (_ & _ & _ & _ & Ft).
  unfold tag_of. rewrite Ft. cbn [andb].
  apply no_terminator_free_LF, no_terminator_trim, dot_star_no_terminator.
Qed.

(** What [formatLrc] writes for the line objects of cut lines. *)
Lemma format_line_objects es :
  formatLrc (List.map line_object es) = join LF (List.map written es).
Proof. unfold formatLrc. now rewrite map_map. Qed.

(** [.*] takes the text up to its first line terminator. *)
Lemma dot_star_cut s :
  exists cut,
    s = dot_star s ++ cut /\
    (cut = [] \/ exists c r, cut = c :: r /\ is_line_terminator c = true).
Proof.
  induction s as [|c s (cut & E & H)].
  - exists []. split; [reflexivity|now left].
  - cbn [dot_star]. destruct (is_line_terminator c) eqn:Ec.
    + exists (c :: s). split; [reflexivity|]. right. now exists c, s.
    + exists cut. split; [cbn [app]; now rewrite <- E|exact H].
Qed.

End FirstTags.

(** ** The claims about the codec *)

(** C1. Round trip from the document: for every input, [parseLrc] returns
    a document [doc], and parsing [formatLrc doc] returns the same lines,
    with the same timestamps, texts and tags, in the same order; the tag of
    each line, parsed by itself, yields the timestamp of the line.  More
    generally, line objects that each came from parsing some line are
    parsed back from what [formatLrc] writes for them, in sorted order. *)
Theorem parse_format_round_trip :
  (forall lrcContent : option jsstring,
   exists doc,
     parseLrc lrcContent = Returns doc /\
     parseLrc (Some (formatLrc doc)) = Returns doc /\
     Forall (fun l =>
               parseLrc (Some (lrcTime l)) =
               Returns [{| timestamp := timestamp l; text := [];
                           lrcTime := lrcTime l |}]) doc) /\
  (forall lines : list LyricLine,
     Forall (fun l => exists raw, line_of raw = Some l) lines ->
     parseLrc (Some (formatLrc lines))
     = Returns (sort compare_lines lines)).
Proof.
  split.
  - intros T. exists (sort compare_lines (lines_in_order T)).
    split; [apply parseLrc_eq|]. split.
    + rewrite parseLrc_Some, parse_rendered.
      * f_equal. apply (sort_idem timestamp).
      * apply Forall_forall. intros l Hl. eapply sorted_line_origin; eauto.
    + apply Forall_forall. intros l Hl.
      apply sorted_line_origin in Hl as (line & E).
      apply line_of_inv in E as (r & _ & Ht & -> & _).
      now apply parse_tag_alone.
  - intros lines H. now rewrite parseLrc_Some, parse_rendered.
Qed.

(** C5. A line that starts with a well-formed tag parses to one line
    object whose timestamp is [MM*60 + SS + fractional/divisor], the
    divisor being 1000 for a fraction of three digits and 100 otherwise,
    and a missing fraction adding 0; ["[01:02.50] hello"] gives 62.5 and
    the text ["hello"]. *)
Theorem timestamp_conversion :
  (forall mm ss fd rest,
     well_formed mm ss fd = true ->
     free_of LF rest = true ->
     exists l,
       parseLrc (Some (make_tag mm ss fd ++ rest)) = Returns [l] /\
       (timestamp l == seconds mm ss fd)%Q /\
       lrcTime l = make_tag mm ss fd /\
       text l = trim (dot_star (trimEnd rest))) /\
  (forall lrcContent doc l,
     parseLrc lrcContent = Returns doc -> In l doc ->
     exists mm ss fd,
       well_formed mm ss fd = true /\ lrcTime l = make_tag mm ss fd /\
       (timestamp l == seconds mm ss fd)%Q) /\
  (exists l,
     parseLrc (Some (lit "[01:02.50] hello")) = Returns [l] /\
     (timestamp l == 125 # 2)%Q /\ text l = lit "hello" /\
     lrcTime l = lit "[01:02.50]").
Proof.
  split.
  - intros mm ss fd rest W F.
    pose proof (make_tag_is_tag _ _ _ W) as Ht.
    eexists. split; [|split; [|split]].
    + rewrite parseLrc_Some. unfold parsed_lines.
      destruct (is_tag_bracketed _ Ht) as (body & _ & _ & _ & Ft).
      rewrite split_free by (rewrite free_of_app, Ft, F; reflexivity).
      cbn [List.map].
      change (make_tag mm ss fd ++ rest) with ([] ++ make_tag mm ss fd ++ rest).
      rewrite (line_of_tagged [] _ rest Ht eq_refl). reflexivity.
    + cbn [timestamp]. now apply make_tag_seconds.
    + reflexivity.
    + reflexivity.
  - split.
    { intros T doc l E Hl. rewrite parseLrc_eq in E. injection E as <-.
      apply sorted_line_origin in Hl as (line & E).
      apply line_of_inv in E as (r & _ & Ht & -> & _).
      apply is_tag_make_tag in Ht as (mm & ss & fd & W & ->).
      exists mm, ss, fd. repeat split; auto. now apply make_tag_seconds. }
    eexists. split; [vm_compute; reflexivity|].
    split; [reflexivity|split; reflexivity].
Qed.

Lemma timestamp_conversion_witness :
  exists l,
    parseLrc (Some (make_tag (lit "00") (lit "07") (Some (lit "250"))
                    ++ lit " la la")) = Returns [l] /\
    (timestamp l == seconds (lit "00") (lit "07") (Some (lit "250")))%Q /\
    lrcTime l = make_tag (lit "00") (lit "07") (Some (lit "250")) /\
    text l = trim (dot_star (trimEnd (lit " la la"))).
Proof.
  apply (proj1 timestamp_conversion); reflexivity.
Defined.

(** C6. What [parseLrc] returns is in ascending order of timestamp and is
    a stable rearrangement of the line objects taken in input order: for
    every timestamp, the lines that carry it come in their input order;
    ["[00:10.123] a"] followed by ["[00:05.000] b"] gives [b] (5 s) and
    then [a] (10.123 s). *)
Theorem parse_sorted_stable :
  (forall lrcContent : option jsstring,
   exists doc,
     parseLrc lrcContent = Returns doc /\
     StronglySorted (key_le timestamp) doc /\
     Permutation doc (lines_in_order lrcContent) /\
     forall t, filter (at_key timestamp t) doc
               = filter (at_key timestamp t) (lines_in_order lrcContent)) /\
  (exists a b,
     parseLrc (Some (lit "[00:10.123] a" ++ [LF] ++ lit "[00:05.000] b"))
     = Returns [b; a] /\
     text b = lit "b" /\ (timestamp b == 5)%Q /\
     text a = lit "a" /\ (timestamp a == 10123 # 1000)%Q).
Proof.
  split.
  - intros T. exists (sort compare_lines (lines_in_order T)).
    split; [apply parseLrc_eq|]. split; [apply (sort_sorted timestamp)|].
    split; [apply (sort_perm timestamp)|].
    intros t. apply (sort_stable timestamp).
  - do 2 eexists. split; [vm_compute; reflexivity|].
    repeat split; reflexivity.
Qed.

(** C7. [parseLrc] never throws; [null] and the empty string give the
    empty array; the lines in which no tag occurs are dropped, so the
    result is that of the text without them, and a text none of whose
    lines has a tag, such as ["no tag here"], gives the empty array. *)
Theorem parse_never_fails :
  (forall lrcContent, exists doc, parseLrc lrcContent = Returns doc) /\
  parseLrc None = Returns [] /\
  parseLrc (Some []) = Returns [] /\
  (forall line,
     has_tag line = true <-> exists a t b, line = a ++ t ++ b /\ is_tag t) /\
  (forall s,
     parseLrc (Some s)
     = parseLrc (Some (join LF (filter has_tag (split LF s))))) /\
  (forall s,
     forallb (fun line => negb (has_tag line)) (split LF s) = true ->
     parseLrc (Some s) = Returns []) /\
  parseLrc (Some (lit "no tag here")) = Returns [].
Proof.
  split; [intros T; eexists; apply parseLrc_eq|].
  split; [reflexivity|]. split; [reflexivity|].
  split; [apply has_tag_spec|].
  split; [intros s; now rewrite !parseLrc_Some, parsed_lines_tagged_only|].
  split; [|reflexivity].
  intros s H. rewrite parseLrc_Some, <- parsed_lines_tagged_only.
  replace (filter has_tag (split LF s)) with (@nil jsstring); [reflexivity|].
  symmetry. induction (split LF s) as [|x r IH]; [reflexivity|].
  simpl in *. apply andb_prop in H as [Hx Hr]. apply negb_true_iff in Hx.
  rewrite Hx. auto.
Qed.

(** C10. The tag may stand anywhere in the line: when a well-formed tag
    follows a prefix in which no tag occurs, the line is kept, the prefix
    is discarded, and the line object has that tag, its timestamp by the
    formula, and as its text what follows the tag up to the first line
    terminator left in the line (carriage return, line separator or
    paragraph separator; the dot of the pattern stops there), trimmed.
    When no such terminator is left, the text is the remainder of the
    line trimmed; ["intro [00:05] hi"] gives the timestamp 5 and the text
    ["hi"].  [has_tag] says that a tag occurs, and [dot_star] cuts at the
    first line terminator. *)
Theorem tag_anywhere_in_line :
  (forall pre mm ss fd rest,
     well_formed mm ss fd = true ->
     has_tag pre = false ->
     free_of LF (pre ++ rest) = true ->
     exists l,
       parseLrc (Some (pre ++ make_tag mm ss fd ++ rest)) = Returns [l] /\
       lrcTime l = make_tag mm ss fd /\
       (timestamp l == seconds mm ss fd)%Q /\
       text l = trim (dot_star (trimEnd rest)) /\
       (no_terminator (trimEnd rest) = true -> text l = trim rest)) /\
  (forall line,
     has_tag line = true <-> exists a t b, line = a ++ t ++ b /\ is_tag t) /\
  (forall s, exists cut,
     s = dot_star s ++ cut /\ no_terminator (dot_star s) = true /\
     (cut = [] \/ exists c r, cut = c :: r /\ is_line_terminator c = true)) /\
  (exists l,
     parseLrc (Some (lit "intro [00:05] hi")) = Returns [l] /\
     (timestamp l == 5)%Q /\ text l = lit "hi" /\ lrcTime l = lit "[00:05]").
Proof.
  split; [|split; [apply has_tag_spec|split]].
  - intros pre mm ss fd rest W Hp F.
    destruct (line_of_make_tag pre mm ss fd rest W Hp) as (l & E & Ht & Hs & Hx).
    exists l. repeat split; auto.
    + rewrite parseLrc_Some. unfold parsed_lines.
      destruct (is_tag_bracketed _ (make_tag_is_tag _ _ _ W))
        as (body & _ & _ & _ & Ft).
      rewrite free_of_app in F. apply andb_prop in F as [Fp Fr].
      rewrite split_free by (rewrite !free_of_app, Fp, Ft, Fr; reflexivity).
      cbn [List.map]. now rewrite E.
    + intros N. rewrite Hx. now apply trim_line_rest.
  - intros s. destruct (dot_star_cut s) as (cut & E & H).
    exists cut. split; [exact E|]. split; [apply dot_star_no_terminator|exact H].
  - eexists. split; [vm_compute; reflexivity|].
    split; [reflexivity|split; reflexivity].
Qed.

Lemma tag_anywhere_in_line_witness :
  exists l,
    parseLrc (Some (lit "La la " ++ make_tag (lit "01") (lit "15") (Some (lit "5"))
                    ++ lit "  oh ")) = Returns [l] /\
    lrcTime l = make_tag (lit "01") (lit "15") (Some (lit "5")) /\
    (timestamp l == seconds (lit "01") (lit "15") (Some (lit "5")))%Q /\
    text l = trim (dot_star (trimEnd (lit "  oh "))) /\
    (no_terminator (trimEnd (lit "  oh ")) = true -> text l = trim (lit "  oh ")).
Proof.
  apply (proj1 tag_anywhere_in_line); reflexivity.
Defined.

(** The text is not always the remainder of the line trimmed: in the
    line ["intro [00:05] hi"], a carriage return, ["there"], the
    remainder trimmed is ["hi"], the carriage return and ["there"], and
    the text of the line object is ["hi"]. *)
Lemma text_stops_at_carriage_return :
  exists l,
    parseLrc (Some (lit "intro [00:05] hi" ++ 13 :: lit "there")) = Returns [l] /\
    lrcTime l = lit "[00:05]" /\
    text l = lit "hi" /\
    trim (lit " hi" ++ 13 :: lit "there") = lit "hi" ++ 13 :: lit "there" /\
    text l <> trim (lit " hi" ++ 13 :: lit "there").
Proof.
  eexists. split; [vm_compute; reflexivity|].
  split; [reflexivity|]. split; [reflexivity|].
  split; [reflexivity|]. vm_compute. discriminate.
Qed.

(** C4. Round trip from the text.  The lines of the text in which a tag
    occurs ([kept contains_tag], said without the matcher of the source)
    are cut at their first tag; [formatLrc (parseLrc s)] has one line for
    each of them, in ascending order of the time of the tag with ties in
    the order of the text, and that line is the tag followed by the text
    after it trimmed (up to the first line terminator left in the line;
    when there is none, the whole remainder trimmed).  A text without
    tagged lines gives the empty string.  The three lines
    ["[00:10.5] b"], ["no tag"], [" [00:05.000]  a "] come back as
    ["[00:05.000]a"] and ["[00:10.5]b"]. *)
Theorem format_parse_tagged_lines :
  (forall s : jsstring,
   exists doc lines,
     parseLrc (Some s) = Returns doc /\
     kept contains_tag (split LF s) (List.map raw_line lines) /\
     Forall first_tag lines /\
     let ordered := sort (by_key time_of) lines in
     (lines = [] -> formatLrc doc = []) /\
     (lines <> [] -> split LF (formatLrc doc) = List.map written ordered) /\
     StronglySorted (key_le time_of) ordered /\
     Permutation ordered lines /\
     (forall t, filter (at_key time_of t) ordered
                = filter (at_key time_of t) lines)) /\
  (forall e,
     written e = make_tag (mins e) (secs e) (frac e)
                 ++ trim (dot_star (trimEnd (trail e))) /\
     (no_terminator (trimEnd (trail e)) = true ->
      written e = make_tag (mins e) (secs e) (frac e) ++ trim (trail e))) /\
  (exists doc,
     parseLrc (Some (lit "[00:10.5] b" ++ LF :: lit "no tag" ++ LF
                     :: lit " [00:05.000]  a ")) = Returns doc /\
     formatLrc doc = lit "[00:05.000]a" ++ LF :: lit "[00:10.5]b").
Proof.
  split; [|split].
  - intros s. destruct (parse_at_first_tags s) as (es & K & F & D).
    eexists. exists es. split; [apply parseLrc_Some|].
    split; [exact K|]. split; [exact F|]. cbv zeta.
    rewrite D, format_line_objects.
    split; [|split; [|split; [|split]]].
    + intros E. now rewrite E.
    + intros NE. apply split_join.
      * intros E. apply map_eq_nil in E.
        pose proof (sort_perm time_of es) as P. rewrite E in P.
        apply Permutation_nil in P. contradiction.
      * apply Forall_map, Forall_forall. intros e He.
        apply written_free_LF. rewrite Forall_forall in F. apply F.
        apply (Permutation_in _ (sort_perm time_of es)), He.
    + apply sort_sorted.
    + apply sort_perm.
    + intros t. apply sort_stable.
  - intros e. split; [reflexivity|].
    intros N. unfold written, text_of, tag_of. f_equal.
    now apply trim_line_rest.
  - eexists. split; [vm_compute; reflexivity|]. reflexivity.
Qed.

(** ** The clean-up of the model's text *)

Section Fences.

Lemma literal_hit w r : literal w (w ++ r) = Some (w, r).
Proof.
  induction w as [|c w IH]; simpl; [reflexivity|].
  now rewrite N.eqb_refl, IH.
Qed.

Lemma literal_starts_with w s :
  starts_with w s = false -> literal w s = None.
Proof.
  revert s. induction w as [|c w IH]; intros s; simpl; [discriminate|].
  destruct s as [|x s]; [reflexivity|].
  destruct (x =? c); simpl; [|reflexivity].
  intros H. now rewrite (IH _ H).
Qed.

Lemma starts_with_app p q s :
  starts_with p s = false -> starts_with (p ++ q) s = false.
Proof.
  revert s. induction p as [|c p IH]; intros s; simpl; [discriminate|].
  destruct s as [|x s]; [reflexivity|].
  destruct (x =? c); simpl; [apply IH|reflexivity].
Qed.

Lemma spaces_trimStart s :
  exists ws, spaces s = Some (ws, trimStart s) /\ s = ws ++ trimStart s.
Proof.
  induction s as [|x r (ws & E & D)]; simpl.
  - now exists [].
  - destruct (is_space x) eqn:Hx.
    + rewrite E. exists (x :: ws). split; [reflexivity|]. simpl. now f_equal.
    + now exists [].
Qed.

Lemma trimStart_app_fence a : trimStart (a ++ FENCE) = trimStart a ++ FENCE.
Proof. now apply (trimStart_app_nonspace a BACKTICK [BACKTICK; BACKTICK]). Qed.

Lemma replace_fences_skip m r :
  replace_fences (List.length m) (m ++ r) = replace_fences 0 r.
Proof.
  induction m as [|c m IH]; simpl; [|exact IH].
  destruct r; reflexivity.
Qed.

(** A match at the head is dropped whole. *)
Lemma replace_fences_match s m r :
  fence s = Some (m, r) -> s = m ++ r -> m <> [] ->
  replace_fences 0 s = replace_fences 0 r.
Proof.
  intros E D N. destruct m as [|c m]; [congruence|].
  subst s. cbn [app replace_fences].
  change (c :: m ++ r) with ((c :: m) ++ r). rewrite E.
  replace (List.length (c :: m) - 1)%nat with (List.length m)
    by (cbn [List.length]; lia).
  apply replace_fences_skip.
Qed.

Lemma replace_fences_keep c s :
  fence (c :: s) = None ->
  replace_fences 0 (c :: s) = c :: replace_fences 0 s.
Proof. intros E. cbn [replace_fences]. now rewrite E. Qed.

Lemma no_fence_inside_suffix a b :
  no_fence_inside (a ++ b) = true -> no_fence_inside b = true.
Proof.
  induction a as [|c a IH]; [auto|].
  cbn [app no_fence_inside]. intros H. apply andb_prop in H as [_ H]. auto.
Qed.

Lemma no_fence_inside_head c x :
  no_fence_inside (c :: x) = true ->
  starts_with FENCE (c :: x ++ FENCE) = false.
Proof.
  cbn [no_fence_inside]. intros H. apply andb_prop in H as [H _].
  now apply negb_true_iff in H.
Qed.

Lemma trimEnd_nil_all_space s : trimEnd s = [] -> forallb is_space s = true.
Proof.
  induction s as [|c r IH]; simpl; [reflexivity|].
  destruct (trimEnd r) as [|d r'] eqn:E; [|discriminate].
  destruct (is_space c); [auto|discriminate].
Qed.

Lemma trimStart_nil_all_space s : trimStart s = [] -> forallb is_space s = true.
Proof.
  induction s as [|c r IH]; simpl; [reflexivity|].
  destruct (is_space c); [auto|discriminate].
Qed.

(** Up to the closing fence only the white space before it goes. *)
Lemma replace_fences_closing x :
  no_fence_inside x = true -> replace_fences 0 (x ++ FENCE) = trimEnd x.
Proof.
  induction x as [|c x IH]; [reflexivity|].
  intros H. pose proof (no_fence_inside_head _ _ H) as Hc.
  pose proof H as H'. cbn [no_fence_inside] in H'.
  apply andb_prop in H' as [_ Hx]. specialize (IH Hx).
  destruct (spaces_trimStart ((c :: x) ++ FENCE)) as (ws & Es & Ds).
  rewrite trimStart_app_fence in Es, Ds.
  assert (E1 : seq_ (literal FENCE_LRC) spaces ((c :: x) ++ FENCE) = None).
  { unfold seq_. rewrite literal_starts_with; [reflexivity|].
    now apply starts_with_app. }
  destruct (trimStart (c :: x)) as [|d y] eqn:Et.
  - (* only white space before the closing fence *)
    apply trimStart_nil_all_space in Et.
    rewrite (trimEnd_all_space _ Et).
    change ([] ++ FENCE) with FENCE in Es, Ds.
    apply app_inv_tail in Ds. subst ws.
    rewrite (replace_fences_match ((c :: x) ++ FENCE) ((c :: x) ++ FENCE) []).
    + reflexivity.
    + unfold fence, alt_. rewrite E1. unfold seq_. rewrite Es. reflexivity.
    + now rewrite app_nil_r.
    + discriminate.
  - (* a unit that is not white space comes first: no match here *)
    assert (Hd : starts_with FENCE ((d :: y) ++ FENCE) = false).
    { destruct (trimStart_decompose (c :: x)) as (ws' & D' & _).
      rewrite Et in D'. rewrite D' in H.
      apply no_fence_inside_suffix in H.
      now apply no_fence_inside_head in H. }
    change ((c :: x) ++ FENCE) with (c :: x ++ FENCE).
    rewrite replace_fences_keep.
    + rewrite IH. cbn [trimEnd].
      destruct (trimEnd x) as [|e x'] eqn:Ex; [|reflexivity].
      destruct (is_space c) eqn:Sc; [|reflexivity].
      apply trimEnd_nil_all_space in Ex.
      assert (A : trimStart (c :: x) = []).
      { apply trimStart_all_space. simpl. now rewrite Sc, Ex. }
      congruence.
    + change (c :: x ++ FENCE) with ((c :: x) ++ FENCE).
      unfold fence, alt_. rewrite E1. unfold seq_. rewrite Es.
      now rewrite literal_starts_with.
Qed.

Lemma trimStart_trimEnd_comm s : trimEnd (trimStart s) = trimStart (trimEnd s).
Proof.
  destruct (trimStart_decompose s) as (ws & E & W).
  rewrite E at 2. rewrite trimEnd_app.
  destruct (trimEnd (trimStart s)) as [|d y] eqn:Et.
  - now rewrite (trimEnd_all_space _ W).
  - destruct (trimStart s) as [|c r] eqn:Es; [discriminate|].
    pose proof (trimStart_head _ _ _ Es) as Hc.
    assert (d = c).
    { simpl in Et. destruct (trimEnd r); [destruct (is_space c)|];
        congruence. }
    subst d. clear E Et Es. induction ws as [|x ws IH]; simpl.
    + now rewrite Hc.
    + simpl in W. apply andb_prop in W as [Hx W]. rewrite Hx. auto.
Qed.

(** The text of one fenced block is cleaned to its trimmed content. *)
Lemma clean_fenced inner :
  no_fence_inside inner = true ->
  clean (FENCE_LRC ++ inner ++ FENCE) = trim inner.
Proof.
  intros H. unfold clean.
  destruct (spaces_trimStart (inner ++ FENCE)) as (ws & Es & Ds).
  rewrite (replace_fences_match _ (FENCE_LRC ++ ws) (trimStart (inner ++ FENCE))).
  - rewrite trimStart_app_fence.
    rewrite replace_fences_closing.
    + unfold trim. rewrite trimEnd_idem, trimStart_trimEnd_comm.
      apply trimStart_idem.
    + destruct (trimStart_decompose inner) as (ws' & D' & _).
      rewrite D' in H. now apply no_fence_inside_suffix in H.
  - unfold fence, alt_, seq_. now rewrite literal_hit, Es.
  - now rewrite <- app_assoc, <- Ds.
  - discriminate.
Qed.

End Fences.

(** ** The attempt loop *)

Section Loop.
Variables (w : World) (req : Request) (maxRetries : nat).

Lemma try_block_reaction i log :
  try_block w req maxRetries i log =
  match reaction maxRetries i (endpoint w req (attempts log)) with
  | Wait => Continue (log_after w i Wait log)
  | Throw message => Caught message (fetched log)
  | Give cleanedText => Return cleanedText (fetched log)
  end.
Proof.
  unfold try_block, reaction.
  destruct (endpoint w req (attempts log)) as [m|status body]; [reflexivity|].
  destruct ((status =? 429) && (i <? maxRetries - 1)%nat); [reflexivity|].
  destruct (negb (ok status)), body as [m|em [[|c t]|]]; reflexivity.
Qed.

Lemma reaction_Give i f t :
  reaction maxRetries i f = Give t -> fulfils f = true.
Proof.
  unfold reaction, fulfils. destruct f as [m|status body]; [discriminate|].
  destruct ((status =? 429) && (i <? maxRetries - 1)%nat); [discriminate|].
  destruct body as [m|em [[|c r]|]]; try discriminate;
    destruct (ok status); simpl; (reflexivity || discriminate).
Qed.

Lemma reaction_last_not_Wait f : reaction maxRetries (maxRetries - 1) f <> Wait.
Proof.
  unfold reaction. destruct f as [m|status body]; [discriminate|].
  rewrite Nat.ltb_irrefl, andb_false_r.
  destruct body as [m|em [[|c r]|]]; try discriminate;
    destruct (negb (ok status)); discriminate.
Qed.

(** An iteration before the last that does not return leads to the next. *)
Lemma loop_next r i log :
  (i < maxRetries - 1)%nat ->
  (forall t, reaction maxRetries i (endpoint w req (attempts log)) <> Give t) ->
  loop w req maxRetries (S r) i log =
  loop w req maxRetries r (S i)
    (log_after w i (reaction maxRetries i (endpoint w req (attempts log))) log).
Proof.
  intros Hi Hn. cbn [loop]. rewrite try_block_reaction.
  destruct (reaction maxRetries i (endpoint w req (attempts log))) as [|m|t].
  - reflexivity.
  - assert (E : (i =? maxRetries - 1)%nat = false) by (apply Nat.eqb_neq; lia).
    now rewrite E.
  - now destruct (Hn t).
Qed.

(** The last iteration settles the call. *)
Lemma loop_last r log :
  loop w req maxRetries (S r) (maxRetries - 1) log =
  match reaction maxRetries (maxRetries - 1) (endpoint w req (attempts log)) with
  | Give t => (Fulfilled t, fetched log)
  | Throw m => (Failed (after_attempts maxRetries m), fetched log)
  | Wait => (Failed UNKNOWN_ERROR, log)
  end.
Proof.
  cbn [loop]. rewrite try_block_reaction.
  pose proof (reaction_last_not_Wait (endpoint w req (attempts log))) as Hw.
  destruct (reaction maxRetries (maxRetries - 1) (endpoint w req (attempts log)));
    [congruence| |reflexivity].
  now rewrite Nat.eqb_refl.
Qed.

Lemma attempts_log_after i r log :
  attempts (log_after w i r log) = S (attempts log).
Proof. destruct r; reflexivity. Qed.

(** As long as no answer fulfils, the loop goes on to the next iteration. *)
Lemma loop_unfulfilled k : forall i log r,
  attempts log = i -> (i + k <= maxRetries - 1)%nat ->
  (forall j, (i <= j < i + k)%nat -> fulfils (endpoint w req j) = false) ->
  exists log',
    attempts log' = (i + k)%nat /\
    loop w req maxRetries (k + r) i log = loop w req maxRetries r (i + k) log'.
Proof.
  induction k as [|k IH]; intros i log r Ha Hk Hf.
  - exists log. rewrite Nat.add_0_r. auto.
  - cbn [Nat.add]. rewrite loop_next.
    + destruct (IH (S i) (log_after w i
                  (reaction maxRetries i (endpoint w req (attempts log))) log) r)
        as (log' & Ha' & E).
      * rewrite attempts_log_after. now f_equal.
      * lia.
      * intros j Hj. apply Hf. lia.
      * exists log'. rewrite E. split; [lia|f_equal; lia].
    + lia.
    + intros t Ht. apply reaction_Give in Ht.
      rewrite Ha, Hf in Ht by lia. discriminate.
Qed.

(** Rate-limit answers in a row: each is waited for with its backoff. *)
Lemma loop_rate_limited k : forall i log r,
  attempts log = i -> List.length (delays log) = i ->
  (i + k <= maxRetries - 1)%nat ->
  (forall j, (i <= j < i + k)%nat ->
             exists body, endpoint w req j = Resolved 429 body) ->
  loop w req maxRetries (k + r) i log =
  loop w req maxRetries r (i + k)
    {| attempts := i + k;
       delays := delays log
                 ++ List.map (fun j => backoff j (random w j)) (seq i k) |}.
Proof.
  induction k as [|k IH]; intros i log r Ha Hd Hk Hf.
  - cbn [seq List.map Nat.add]. rewrite app_nil_r, Nat.add_0_r.
    destruct log as [a d]. simpl in Ha. now subst a.
  - destruct (Hf i) as (body & E); [lia|].
    assert (R : reaction maxRetries i (endpoint w req (attempts log)) = Wait).
    { rewrite Ha, E. unfold reaction.
      assert (L : (i <? maxRetries - 1)%nat = true) by (apply Nat.ltb_lt; lia).
      now rewrite L. }
    cbn [Nat.add]. rewrite loop_next by (rewrite ?R; (lia || discriminate)).
    rewrite R. rewrite IH.
    + unfold log_after, waited, fetched. cbn [attempts delays seq List.map].
      rewrite Hd, <- app_assoc. cbn [app].
      replace (S i + k)%nat with (i + S k)%nat by lia. reflexivity.
    + unfold log_after, waited, fetched. cbn [attempts]. now f_equal.
    + unfold log_after, waited, fetched. cbn [delays].
      rewrite length_app. cbn [List.length]. lia.
    + lia.
    + intros j Hj. apply Hf. lia.
Qed.

(** Answers that make the [try] block throw, before the last iteration:
    the next attempt follows at once. *)
Lemma loop_thrown k : forall i log r,
  attempts log = i -> (i + k <= maxRetries - 1)%nat ->
  (forall j, (i <= j < i + k)%nat ->
             exists m, reaction maxRetries j (endpoint w req j) = Throw m) ->
  loop w req maxRetries (k + r) i log =
  loop w req maxRetries r (i + k)
    {| attempts := i + k; delays := delays log |}.
Proof.
  induction k as [|k IH]; intros i log r Ha Hk Hf.
  - rewrite Nat.add_0_r. destruct log as [a d]. simpl in Ha. now subst a.
  - destruct (Hf i) as (m & E); [lia|].
    assert (R : reaction maxRetries i (endpoint w req (attempts log)) = Throw m)
      by now rewrite Ha.
    cbn [Nat.add]. rewrite loop_next by (rewrite ?R; (lia || discriminate)).
    rewrite R. rewrite IH.
    + unfold log_after, fetched. cbn [attempts delays].
      replace (S i + k)%nat with (i + S k)%nat by lia. reflexivity.
    + unfold log_after, fetched. cbn [attempts]. now f_equal.
    + lia.
    + intros j Hj. apply Hf. lia.
Qed.

Lemma remote_failure_reaction i f m :
  remote_failure f = Some m -> reaction maxRetries i f = Throw m.
Proof.
  unfold remote_failure, reaction. destruct f as [x|status body]; [discriminate|].
  destruct (ok status) eqn:Ho; [discriminate|].
  destruct (status =? 429) eqn:Hs; [discriminate|]. cbn [orb andb negb].
  intros H. injection H as <-. destruct body; reflexivity.
Qed.

End Loop.

(** ** The claims about the transcription client *)

Section ClientFacts.
Variables (w : World) (req : Request) (maxRetries : nat).

Lemma loop_give r i log t :
  reaction maxRetries i (endpoint w req (attempts log)) = Give t ->
  loop w req maxRetries (S r) i log = (Fulfilled t, fetched log).
Proof. intros R. cbn [loop]. now rewrite try_block_reaction, R. Qed.

Lemma ok_not_429 status : ok status = true -> (status =? 429) = false.
Proof.
  unfold ok. intros H. apply andb_prop in H as [_ H]. apply N.leb_le in H.
  apply N.eqb_neq. lia.
Qed.

Lemma reaction_ok_text i status em c text :
  ok status = true ->
  reaction maxRetries i (Resolved status (Json em (Some (c :: text))))
  = Give (clean (c :: text)).
Proof.
  intros H. unfold reaction. now rewrite (ok_not_429 _ H), H.
Qed.

Lemma reaction_ok_empty i status em text :
  ok status = true -> text = None \/ text = Some [] ->
  reaction maxRetries i (Resolved status (Json em text)) = Throw EMPTY_RESPONSE.
Proof.
  intros H T. unfold reaction. rewrite (ok_not_429 _ H), H.
  now destruct T as [->| ->].
Qed.

Lemma reaction_429_last body :
  reaction maxRetries (maxRetries - 1) (Resolved 429 body)
  = Throw (failure_message 429 body).
Proof.
  unfold reaction. rewrite Nat.ltb_irrefl. now destruct body.
Qed.

(** The call from the start, when no answer before the last fulfils. *)
Lemma transcribeAudio_last :
  (0 < maxRetries)%nat ->
  (forall j, (j < maxRetries - 1)%nat -> fulfils (endpoint w req j) = false) ->
  exists log,
    attempts log = (maxRetries - 1)%nat /\
    transcribeAudio w req maxRetries =
    match reaction maxRetries (maxRetries - 1)
            (endpoint w req (maxRetries - 1)) with
    | Give t => (Fulfilled t, fetched log)
    | Throw m => (Failed (after_attempts maxRetries m), fetched log)
    | Wait => (Failed UNKNOWN_ERROR, log)
    end.
Proof.
  intros Hn Hf. unfold transcribeAudio.
  destruct (loop_unfulfilled w req maxRetries (maxRetries - 1) 0 start 1)
    as (log & Ha & E); [reflexivity|lia|intros j Hj; apply Hf; lia|].
  replace (maxRetries - 1 + 1)%nat with maxRetries in E by lia.
  cbn [Nat.add] in E, Ha. rewrite E, loop_last, Ha. now exists log.
Qed.

End ClientFacts.

Lemma after_attempts_inj n m m' :
  after_attempts n m = after_attempts n m' -> m = m'.
Proof.
  unfold after_attempts. intros H. now repeat apply app_inv_head in H.
Qed.

Lemma status_message_not_empty s : status_message s <> EMPTY_RESPONSE.
Proof. discriminate. Qed.

Lemma remote_failure_Some status body :
  ok status = false -> (status =? 429) = false ->
  remote_failure (Resolved status body) = Some (failure_message status body).
Proof. intros Ho Hs. unfold remote_failure. now rewrite Ho, Hs. Qed.

(** C2 as stated fails: an endpoint that always answers 500 is called five
    times by [transcribeAudio ... 5], not once. *)
Lemma remote_failure_not_immediate :
  (forall k, endpoint always_500 a_request k
             = Resolved 500 (Json (Some (lit "boom")) None)) /\
  transcribeAudio always_500 a_request 5
  = (Failed (after_attempts 5 (lit "boom")),
     {| attempts := 5; delays := [] |}).
Proof. split; [reflexivity|vm_compute; reflexivity]. Qed.

(** C2, amended. An error response other than the rate-limit one makes
    the [try] block throw, without any wait, an error whose message is:
    the message of the exception thrown while the body is read, when that
    throws (a body that is not JSON, or the JSON [null]); else the remote
    message, when there is one and it is not empty; else "API request
    failed with status " and the status.  On the last iteration the call
    fails with that message after the words "Failed to transcribe audio
    after N attempts: "; on an earlier one the next attempt follows at
    once.  So an endpoint that always answers with such an error is called
    [maxRetries] times, never waited for, and the call fails with the
    message of its last answer. *)
Theorem remote_failure_retried_until_last :
  (forall w req maxRetries i log status body r,
     endpoint w req (attempts log) = Resolved status body ->
     ok status = false -> (status =? 429) = false ->
     try_block w req maxRetries i log
     = Caught (failure_message status body) (fetched log) /\
     loop w req maxRetries (S r) i log =
     if (i =? maxRetries - 1)%nat
     then (Failed (after_attempts maxRetries (failure_message status body)),
           fetched log)
     else loop w req maxRetries r (S i) (fetched log)) /\
  (forall status,
     (forall e, failure_message status (Unreadable e) = e) /\
     (forall c m t, failure_message status (Json (Some (c :: m)) t) = c :: m) /\
     (forall t, failure_message status (Json (Some []) t)
                = lit "API request failed with status " ++ of_N status) /\
     (forall t, failure_message status (Json None t)
                = lit "API request failed with status " ++ of_N status)) /\
  (forall w req maxRetries,
     (0 < maxRetries)%nat ->
     (forall j, (j < maxRetries)%nat ->
        exists status body,
          endpoint w req j = Resolved status body /\
          ok status = false /\ (status =? 429) = false) ->
     exists status body,
       endpoint w req (maxRetries - 1) = Resolved status body /\
       transcribeAudio w req maxRetries =
       (Failed (after_attempts maxRetries (failure_message status body)),
        {| attempts := maxRetries; delays := [] |})).
Proof.
  split; [|split].
  - intros w req n i log status body r E Ho Hs.
    pose proof (remote_failure_Some status body Ho Hs) as H.
    rewrite <- E in H.
    assert (T : try_block w req n i log
                = Caught (failure_message status body) (fetched log)).
    { rewrite try_block_reaction.
      now rewrite (remote_failure_reaction n i _ _ H). }
    split; [exact T|]. cbn [loop]. now rewrite T.
  - intros status. repeat split.
  - intros w req n Hn Hf.
    destruct (Hf (n - 1)%nat ltac:(lia)) as (status & body & E & Ho & Hs).
    exists status, body. split; [exact E|].
    pose proof (remote_failure_Some status body Ho Hs) as H.
    rewrite <- E in H. unfold transcribeAudio.
    replace n with ((n - 1) + 1)%nat at 2 by lia.
    rewrite loop_thrown; [|reflexivity|lia|].
    + cbn [Nat.add]. rewrite loop_last. cbn [attempts].
      rewrite (remote_failure_reaction n _ _ _ H).
      unfold fetched. cbn [attempts delays start].
      replace (S (n - 1)) with n by lia. reflexivity.
    + intros j Hj.
      destruct (Hf j ltac:(lia)) as (sj & bj & Ej & Hoj & Hsj).
      exists (failure_message sj bj). apply remote_failure_reaction.
      rewrite Ej. now apply remote_failure_Some.
Qed.

Lemma remote_failure_retried_until_last_witness :
  exists status body,
    endpoint always_502 a_request (3 - 1) = Resolved status body /\
    transcribeAudio always_502 a_request 3 =
    (Failed (after_attempts 3 (failure_message status body)),
     {| attempts := 3; delays := [] |}).
Proof.
  apply (proj2 (proj2 remote_failure_retried_until_last)); [lia|].
  intros j _.
  exists 502%N, (Unreadable (lit "Unexpected token < in JSON at position 0")).
  repeat split; reflexivity.
Defined.

(** C3 as stated fails: the call does not retry on the rate-limit answer
    only; after a 503 it calls again, at once, and returns the text of the
    second answer. *)
Lemma retry_without_rate_limit :
  endpoint once_503 a_request 0 = Resolved 503 (Json None None) /\
  transcribeAudio once_503 a_request 5
  = (Fulfilled (lit "[00:01.00] hi"), {| attempts := 2; delays := [] |}).
Proof. split; [reflexivity|vm_compute; reflexivity]. Qed.

(** C3, amended. After a rate-limit answer (429) on an iteration [i] that
    is not the last, the call waits [2^i * 1000 + random * 1000]
    milliseconds and then calls again; for a random number in [0, 1) the
    wait is at least [2^i * 1000] and at most [2^i * 1000 + 1000] (both
    ends included: through iteration 46 the two bounds are doubles, and
    the sum the source rounds stays between them).  After anything thrown
    on such an iteration the call calls again at once, so the rate-limit
    answer is not the only one retried.  When the first [k] answers are
    rate-limit ones and the next fulfils, the call returns its cleaned
    text after [k + 1] attempts and the [k] backoffs (two of them before
    the third attempt of [transcribeAudio ... 5]); when all the answers
    are rate-limit ones, the call fails, after [maxRetries] attempts
    (three for [transcribeAudio ... 3]) and [maxRetries - 1] backoffs,
    with, after "Failed to transcribe audio after N attempts: ", the
    message of the last answer: the message of the exception thrown while
    its body is read, when that throws; else its remote message, when
    there is one and it is not empty; else "API request failed with
    status 429". *)
Theorem rate_limit_backoff :
  (forall w req maxRetries i log body,
     (i < maxRetries - 1)%nat ->
     endpoint w req (attempts log) = Resolved 429 body ->
     try_block w req maxRetries i log =
     Continue (waited (backoff i (random w (List.length (delays log))))
                 (fetched log))) /\
  (forall i r,
     (i <= 46)%nat -> (0 <= r)%Q -> (r < 1)%Q ->
     (inject_Z (2 ^ Z.of_nat i) * 1000 <= backoff i r)%Q /\
     (backoff i r <= inject_Z (2 ^ Z.of_nat i) * 1000 + 1000)%Q) /\
  (forall w req maxRetries i log m r,
     (i < maxRetries - 1)%nat ->
     try_block w req maxRetries i log = Caught m (fetched log) ->
     loop w req maxRetries (S r) i log
     = loop w req maxRetries r (S i) (fetched log)) /\
  (forall w req maxRetries k status em c text,
     (k < maxRetries)%nat ->
     (forall j, (j < k)%nat ->
                exists body, endpoint w req j = Resolved 429 body) ->
     endpoint w req k = Resolved status (Json em (Some (c :: text))) ->
     ok status = true ->
     transcribeAudio w req maxRetries =
     (Fulfilled (clean (c :: text)),
      {| attempts := S k; delays := backoffs w k |})) /\
  (forall w req maxRetries body,
     (0 < maxRetries)%nat ->
     (forall j, (j < maxRetries - 1)%nat ->
                exists b, endpoint w req j = Resolved 429 b) ->
     endpoint w req (maxRetries - 1) = Resolved 429 body ->
     transcribeAudio w req maxRetries =
     (Failed (after_attempts maxRetries (failure_message 429 body)),
      {| attempts := maxRetries; delays := backoffs w (maxRetries - 1) |})) /\
  (forall w req b0 b1 status em c text,
     endpoint w req 0 = Resolved 429 b0 ->
     endpoint w req 1 = Resolved 429 b1 ->
     endpoint w req 2 = Resolved status (Json em (Some (c :: text))) ->
     ok status = true ->
     transcribeAudio w req 5 =
     (Fulfilled (clean (c :: text)),
      {| attempts := 3;
         delays := [backoff 0 (random w 0); backoff 1 (random w 1)] |})) /\
  (forall w req b0 b1 b2,
     endpoint w req 0 = Resolved 429 b0 ->
     endpoint w req 1 = Resolved 429 b1 ->
     endpoint w req 2 = Resolved 429 b2 ->
     transcribeAudio w req 3 =
     (Failed (after_attempts 3 (failure_message 429 b2)),
      {| attempts := 3;
         delays := [backoff 0 (random w 0); backoff 1 (random w 1)] |})) /\
  (forall e, failure_message 429 (Unreadable e) = e) /\
  (forall c m t, failure_message 429 (Json (Some (c :: m)) t) = c :: m) /\
  (forall t, failure_message 429 (Json (Some []) t)
             = lit "API request failed with status 429") /\
  (forall t, failure_message 429 (Json None t)
             = lit "API request failed with status 429").
Proof.
  assert (S1 : forall w req maxRetries k status em c text,
     (k < maxRetries)%nat ->
     (forall j, (j < k)%nat ->
                exists body, endpoint w req j = Resolved 429 body) ->
     endpoint w req k = Resolved status (Json em (Some (c :: text))) ->
     ok status = true ->
     transcribeAudio w req maxRetries =
     (Fulfilled (clean (c :: text)),
      {| attempts := S k; delays := backoffs w k |})).
  { intros w req n k status em c text Hk Hf E Ho. unfold transcribeAudio.
    replace n with (k + S (n - k - 1))%nat at 2 by lia.
    rewrite loop_rate_limited;
      [|reflexivity|reflexivity|lia|intros j Hj; apply Hf; lia].
    cbn [Nat.add start delays app].
    rewrite (loop_give _ _ _ _ _ _ (clean (c :: text))).
    - reflexivity.
    - cbn [attempts]. rewrite E. now apply reaction_ok_text. }
  assert (S2 : forall w req maxRetries body,
     (0 < maxRetries)%nat ->
     (forall j, (j < maxRetries - 1)%nat ->
                exists b, endpoint w req j = Resolved 429 b) ->
     endpoint w req (maxRetries - 1) = Resolved 429 body ->
     transcribeAudio w req maxRetries =
     (Failed (after_attempts maxRetries (failure_message 429 body)),
      {| attempts := maxRetries; delays := backoffs w (maxRetries - 1) |})).
  { intros w req n body Hn Hf E. unfold transcribeAudio.
    replace n with ((n - 1) + 1)%nat at 2 by lia.
    rewrite loop_rate_limited;
      [|reflexivity|reflexivity|lia|intros j Hj; apply Hf; lia].
    cbn [Nat.add start delays app]. rewrite loop_last. cbn [attempts].
    rewrite E, reaction_429_last. unfold fetched. cbn [attempts delays].
    replace (S (n - 1)) with n by lia. reflexivity. }
  split; [|split; [|split; [|split; [exact S1|split; [exact S2|split;
    [|split; [|repeat split]]]]]]].
  - intros w req n i log body Hi E. rewrite try_block_reaction, E.
    unfold reaction.
    assert (L : (i <? n - 1)%nat = true) by (apply Nat.ltb_lt; lia).
    now rewrite L.
  - intros i r _ H0 H1. unfold backoff. split; lra.
  - intros w req n i log m r Hi T. cbn [loop]. rewrite T.
    assert (E : (i =? n - 1)%nat = false) by (apply Nat.eqb_neq; lia).
    now rewrite E.
  - intros w req b0 b1 status em c text E0 E1 E2 Ho.
    apply (S1 w req 5%nat 2%nat status em c text); auto.
    intros [|[|j]] Hj; [now exists b0|now exists b1|lia].
  - intros w req b0 b1 b2 E0 E1 E2.
    apply (S2 w req 3%nat b2); auto.
    intros [|[|j]] Hj; [now exists b0|now exists b1|simpl in Hj; lia].
Qed.

Lemma rate_limit_backoff_witness :
  transcribeAudio twice_429 a_request 5 =
  (Fulfilled (clean (lit "[00:01.00] hi")),
   {| attempts := 3;
      delays := [backoff 0 (random twice_429 0);
                 backoff 1 (random twice_429 1)] |}).
Proof.
  apply (proj1 (proj2 (proj2 (proj2 (proj2 (proj2 rate_limit_backoff)))))
           twice_429 a_request (Json None None) (Json None None) 200 None);
    reflexivity.
Defined.

(** C8 as stated fails.  An ok answer whose text is three spaces has no
    usable text, and the call returns the empty string for it at the
    first attempt; an ok answer with an empty text on the first attempt
    is caught and the call goes on, to return the text of the second
    answer; and a rate-limit answer whose remote message is the sentence
    of the empty response fails the call exactly as an empty answer
    does. *)
Lemma empty_response_not_set_apart :
  transcribeAudio always_blank a_request 5
  = (Fulfilled [], {| attempts := 1; delays := [] |}) /\
  endpoint empty_once a_request 0 = Resolved 200 (Json None (Some [])) /\
  transcribeAudio empty_once a_request 5
  = (Fulfilled (lit "[00:01.00] hi"), {| attempts := 2; delays := [] |}) /\
  endpoint rate_limited_as_empty a_request 0
  = Resolved 429 (Json (Some EMPTY_RESPONSE) None) /\
  endpoint always_empty a_request 0 = Resolved 200 (Json None (Some [])) /\
  transcribeAudio rate_limited_as_empty a_request 1
  = transcribeAudio always_empty a_request 1.
Proof. repeat split; vm_compute; reflexivity. Qed.

(** C8, amended.  When no answer before the last attempt makes the call
    return and the answer to the last attempt is ok but carries no text
    (none, or the empty string), the call fails with "Received an empty
    response from the AI model." after the words "Failed to transcribe
    audio after N attempts: ".  A network failure or a rate-limit answer
    on the last attempt fails the call with its own message after the
    same words, so the failure of the empty response is set apart from
    them by the message only: the two failures are the same exactly when
    that message is the sentence of the empty response, which the status
    message never is.  An ok answer without text on an earlier attempt
    throws the same sentence, is caught, and the next attempt follows at
    once. *)
Theorem empty_response_condition :
  (forall w req maxRetries status em text,
     (0 < maxRetries)%nat ->
     (forall j, (j < maxRetries - 1)%nat ->
                fulfils (endpoint w req j) = false) ->
     endpoint w req (maxRetries - 1) = Resolved status (Json em text) ->
     ok status = true ->
     text = None \/ text = Some [] ->
     fst (transcribeAudio w req maxRetries)
     = Failed (lit "Failed to transcribe audio after " ++ of_nat maxRetries
               ++ lit " attempts: "
               ++ lit "Received an empty response from the AI model.") /\
     attempts (snd (transcribeAudio w req maxRetries)) = maxRetries /\
     (forall w' req',
        (forall j, (j < maxRetries - 1)%nat ->
                   fulfils (endpoint w' req' j) = false) ->
        (forall m,
           endpoint w' req' (maxRetries - 1) = Rejected m ->
           fst (transcribeAudio w' req' maxRetries)
           = Failed (after_attempts maxRetries m) /\
           (fst (transcribeAudio w' req' maxRetries)
            = fst (transcribeAudio w req maxRetries)
            <-> m = EMPTY_RESPONSE)) /\
        (forall body,
           endpoint w' req' (maxRetries - 1) = Resolved 429 body ->
           fst (transcribeAudio w' req' maxRetries)
           = Failed (after_attempts maxRetries (failure_message 429 body)) /\
           (fst (transcribeAudio w' req' maxRetries)
            = fst (transcribeAudio w req maxRetries)
            <-> failure_message 429 body = EMPTY_RESPONSE)))) /\
  (forall s, status_message s <> EMPTY_RESPONSE) /\
  (forall w req maxRetries i log status em text r,
     (i < maxRetries - 1)%nat ->
     endpoint w req (attempts log) = Resolved status (Json em text) ->
     ok status = true ->
     text = None \/ text = Some [] ->
     try_block w req maxRetries i log = Caught EMPTY_RESPONSE (fetched log) /\
     loop w req maxRetries (S r) i log
     = loop w req maxRetries r (S i) (fetched log)) /\
  (forall body : Body,
     fulfils (Resolved 429 body) = false /\
     forall status em text m,
       fulfils (Rejected m) = false /\
       (fulfils (Resolved status (Json em text)) = true <->
        ok status = true /\ exists c t, text = Some (c :: t))).
Proof.
  split; [|split; [apply status_message_not_empty|split]].
  - intros w req n status em text Hn Hf E Ho Ht.
    destruct (transcribeAudio_last w req n Hn Hf) as (log & Ha & R).
    rewrite E, (reaction_ok_empty n _ status em text Ho Ht) in R.
    assert (F : fst (transcribeAudio w req n)
                = Failed (after_attempts n EMPTY_RESPONSE)) by now rewrite R.
    split; [exact F|]. split; [rewrite R; cbn; lia|].
    intros w' req' Hf'.
    destruct (transcribeAudio_last w' req' n Hn Hf') as (log' & Ha' & R').
    split.
    + intros m E'. rewrite E' in R'. cbn [reaction] in R'.
      assert (F' : fst (transcribeAudio w' req' n)
                   = Failed (after_attempts n m)) by now rewrite R'.
      split; [exact F'|]. rewrite F, F'. split.
      * intros C. apply (after_attempts_inj n). congruence.
      * now intros ->.
    + intros body E'. rewrite E', reaction_429_last in R'.
      assert (F' : fst (transcribeAudio w' req' n)
                   = Failed (after_attempts n (failure_message 429 body)))
        by now rewrite R'.
      split; [exact F'|]. rewrite F, F'. split.
      * intros C. apply (after_attempts_inj n). congruence.
      * now intros ->.
  - intros w req n i log status em text r Hi E Ho Ht.
    assert (T : try_block w req n i log = Caught EMPTY_RESPONSE (fetched log)).
    { rewrite try_block_reaction, E.
      now rewrite (reaction_ok_empty n i status em text Ho Ht). }
    split; [exact T|]. cbn [loop]. rewrite T.
    assert (N : (i =? n - 1)%nat = false) by (apply Nat.eqb_neq; lia).
    now rewrite N.
  - intros body. split; [now destruct body as [e|em [[|c t]|]]|].
    intros status em text m. split; [reflexivity|].
    cbn [fulfils]. destruct text as [[|c t]|].
    + split; [discriminate|]. now intros (_ & c & t & H).
    + split; [intros H; split; [exact H|now exists c, t]|now intros [H _]].
    + split; [discriminate|]. now intros (_ & c & t & H).
Qed.

Lemma empty_response_condition_witness :
  fst (transcribeAudio always_empty a_request 5)
  = Failed (lit "Failed to transcribe audio after " ++ of_nat 5
            ++ lit " attempts: "
            ++ lit "Received an empty response from the AI model.") /\
  attempts (snd (transcribeAudio always_empty a_request 5)) = 5%nat.
Proof.
  destruct (proj1 empty_response_condition always_empty a_request 5%nat 200
              None (Some [])) as (F & A & _); auto; lia.
Defined.

(** C9. A text that is one fenced block (the [lrc] fence, a content in
    which no fence starts, the closing fence) is cleaned to its content
    with the white space around it trimmed; that is what the [try] block
    returns for an ok answer carrying it, and what the call returns when
    its first answer is such. *)
Theorem fenced_text_unwrapped :
  (forall inner,
     no_fence_inside inner = true ->
     clean (FENCE_LRC ++ inner ++ FENCE) = trim inner) /\
  (forall w req maxRetries i log status em inner,
     endpoint w req (attempts log)
     = Resolved status (Json em (Some (FENCE_LRC ++ inner ++ FENCE))) ->
     ok status = true ->
     no_fence_inside inner = true ->
     try_block w req maxRetries i log = Return (trim inner) (fetched log)) /\
  (forall w req maxRetries status em inner,
     (0 < maxRetries)%nat ->
     endpoint w req 0
     = Resolved status (Json em (Some (FENCE_LRC ++ inner ++ FENCE))) ->
     ok status = true ->
     no_fence_inside inner = true ->
     transcribeAudio w req maxRetries
     = (Fulfilled (trim inner), {| attempts := 1; delays := [] |})).
Proof.
  assert (T : forall w req maxRetries i log status em inner,
     endpoint w req (attempts log)
     = Resolved status (Json em (Some (FENCE_LRC ++ inner ++ FENCE))) ->
     ok status = true ->
     no_fence_inside inner = true ->
     try_block w req maxRetries i log = Return (trim inner) (fetched log)).
  { intros w req n i log status em inner E Ho Hi.
    rewrite try_block_reaction, E.
    change (FENCE_LRC ++ inner ++ FENCE)
      with (BACKTICK :: tl FENCE_LRC ++ inner ++ FENCE).
    rewrite (reaction_ok_text n i status em _ _ Ho).
    change (BACKTICK :: tl FENCE_LRC ++ inner ++ FENCE)
      with (FENCE_LRC ++ inner ++ FENCE).
    now rewrite clean_fenced. }
  split; [exact clean_fenced|]. split; [exact T|].
  intros w req n status em inner Hn E Ho Hi. unfold transcribeAudio.
  destruct n as [|n]; [lia|]. cbn [loop].
  now rewrite (T w req (S n) 0%nat start status em inner E Ho Hi).
Qed.

Lemma fenced_text_unwrapped_witness :
  transcribeAudio always_fenced a_request 5
  = (Fulfilled (trim ([LF] ++ lit "[00:01.00] hi" ++ [LF])),
     {| attempts := 1; delays := [] |}).
Proof.
  apply (proj2 (proj2 fenced_text_unwrapped) always_fenced a_request 5%nat
           200 None ([LF] ++ lit "[00:01.00] hi" ++ [LF]));
    [lia|reflexivity|reflexivity|reflexivity].
Defined.

(** ** Further properties of the code *)

Lemma replace_fences_blank ws :
  forallb is_space ws = true -> replace_fences 0 ws = ws.
Proof.
  induction ws as [|c r IH]; [reflexivity|].
  intros H. pose proof H as H'. simpl in H'.
  apply andb_prop in H' as [Hc Hr].
  rewrite replace_fences_keep; [now rewrite (IH Hr)|].
  unfold fence, alt_, seq_.
  assert (L : literal FENCE_LRC (c :: r) = None).
  { simpl. destruct (N.eqb_spec c BACKTICK) as [->|_]; [discriminate Hc|].
    reflexivity. }
  rewrite L. destruct (spaces_trimStart (c :: r)) as (ws' & E & _).
  rewrite E, (trimStart_all_space _ H). reflexivity.
Qed.

(** X1. The emptiness check comes before the clean-up: an ok answer whose
    text is only white space is not an empty response; the [try] block
    returns the empty string for it, as it does for a text that is only
    the two fences. *)
Theorem blank_text_fulfils_empty :
  (forall w req maxRetries i log status em c ws,
     endpoint w req (attempts log) = Resolved status (Json em (Some (c :: ws))) ->
     ok status = true ->
     forallb is_space (c :: ws) = true ->
     try_block w req maxRetries i log = Return [] (fetched log)) /\
  clean (FENCE_LRC ++ [LF] ++ FENCE) = [].
Proof.
  split; [|reflexivity].
  intros w req n i log status em c ws E Ho Hs.
  rewrite try_block_reaction, E, (reaction_ok_text n i status em c ws Ho).
  unfold clean. rewrite (replace_fences_blank _ Hs).
  unfold trim. now rewrite (trimEnd_all_space _ Hs).
Qed.

Lemma blank_text_fulfils_empty_witness :
  try_block
    {| endpoint := fun _ _ => Resolved 200 (Json None (Some (lit "   ")));
       random := half |} a_request 5 0 start
  = Return [] (fetched start).
Proof.
  apply (proj1 blank_text_fulfils_empty _ a_request 5%nat 0%nat start 200 None
           32 (lit "  ")); reflexivity.
Defined.

(** X2. A fraction of one digit is read as hundredths, not tenths: the
    tag [[mm:ss.d]] has the timestamp [mm*60 + ss + d/100], the same as
    [[mm:ss.0d]]. *)
Theorem single_digit_fraction_is_hundredths :
  forall mm ss d,
    well_formed mm ss (Some [d]) = true ->
    exists l,
      parseLrc (Some (make_tag mm ss (Some [d]))) = Returns [l] /\
      (timestamp l
       == num (decimal mm) * 60 + num (decimal ss) + num (d - 48) / 100)%Q /\
      Qeq (timestamp l) (seconds mm ss (Some [48; d])).
Proof.
  intros mm ss d W. pose proof (make_tag_is_tag _ _ _ W) as Ht.
  eexists. split; [apply (parse_tag_alone _ Ht)|].
  cbn [timestamp]. rewrite (make_tag_seconds _ _ _ W).
  unfold seconds, decimal. cbn [fold_left List.length Nat.eqb].
  split; apply Qplus_inj_l.
  - now rewrite N.mul_0_r, N.add_0_l.
  - replace (10 * (10 * 0 + (48 - 48)) + (d - 48)) with (10 * 0 + (d - 48))
      by reflexivity. reflexivity.
Qed.

Lemma single_digit_fraction_is_hundredths_witness :
  exists l,
    parseLrc (Some (make_tag (lit "01") (lit "02") (Some [53]))) = Returns [l] /\
    (timestamp l
     == num (decimal (lit "01")) * 60 + num (decimal (lit "02"))
        + num (53 - 48) / 100)%Q /\
    Qeq (timestamp l) (seconds (lit "01") (lit "02") (Some [48; 53])).
Proof.
  apply (single_digit_fraction_is_hundredths (lit "01") (lit "02") 53).
  reflexivity.
Defined.

(** X3. White space before the opening fence is taken, with the three
    backticks after it, by the second alternative of the clean-up: the
    letters [lrc] stay at the head of the cleaned text, and the white
    space after them stays too. *)
Theorem blank_before_fence_leaves_lrc :
  forall ws inner,
    ws <> [] ->
    forallb is_space ws = true ->
    no_fence_inside inner = true ->
    clean (ws ++ FENCE_LRC ++ inner ++ FENCE) = lit "lrc" ++ trimEnd inner.
Proof.
  intros ws inner Hn Hs Hi. unfold clean.
  rewrite (replace_fences_match _ (ws ++ FENCE) (lit "lrc" ++ inner ++ FENCE)).
  - change (lit "lrc" ++ inner ++ FENCE)
      with (108 :: 114 :: 99 :: inner ++ FENCE).
    rewrite !replace_fences_keep by reflexivity.
    rewrite (replace_fences_closing _ Hi).
    change (108 :: 114 :: 99 :: trimEnd inner) with (lit "lrc" ++ trimEnd inner).
    unfold trim. rewrite trimEnd_app, trimEnd_idem.
    destruct (trimEnd inner) as [|c r]; reflexivity.
  - unfold fence, alt_, seq_.
    assert (L : literal FENCE_LRC (ws ++ FENCE_LRC ++ inner ++ FENCE) = None).
    { destruct ws as [|c ws']; [congruence|]. simpl in Hs.
      apply andb_prop in Hs as [Hc _]. simpl.
      destruct (N.eqb_spec c BACKTICK) as [->|_]; [discriminate Hc|].
      reflexivity. }
    rewrite L.
    destruct (spaces_trimStart (ws ++ FENCE_LRC ++ inner ++ FENCE))
      as (ws' & E & D).
    assert (T : trimStart (ws ++ FENCE_LRC ++ inner ++ FENCE)
                = FENCE_LRC ++ inner ++ FENCE).
    { change (FENCE_LRC ++ inner ++ FENCE)
        with (BACKTICK :: tl FENCE_LRC ++ inner ++ FENCE).
      rewrite trimStart_app_nonspace by reflexivity.
      now rewrite (trimStart_all_space _ Hs). }
    rewrite T in E, D. apply app_inv_tail in D. subst ws'.
    rewrite E.
    change (FENCE_LRC ++ inner ++ FENCE)
      with (FENCE ++ lit "lrc" ++ inner ++ FENCE).
    now rewrite literal_hit.
  - now rewrite <- app_assoc.
  - destruct ws; [congruence|discriminate].
Qed.

Lemma blank_before_fence_leaves_lrc_witness :
  clean ([LF] ++ FENCE_LRC ++ ([LF] ++ lit "[00:01.00] hi" ++ [LF]) ++ FENCE)
  = lit "lrc" ++ trimEnd ([LF] ++ lit "[00:01.00] hi" ++ [LF]).
Proof.
  apply (blank_before_fence_leaves_lrc [LF]
           ([LF] ++ lit "[00:01.00] hi" ++ [LF]));
    [discriminate|reflexivity|reflexivity].
Defined.

(** *** The download name *)

Lemma run_all p s : forallb p s = true -> run p s = (s, []).
Proof.
  induction s as [|c r IH]; simpl; [reflexivity|].
  intros H. apply andb_prop in H as [Hc Hr]. now rewrite Hc, (IH Hr).
Qed.

Lemma run_rest p s :
  forallb p s = false -> exists m c r, run p s = (m, c :: r).
Proof.
  induction s as [|c r IH]; simpl; [discriminate|].
  destruct (p c) eqn:Hc; simpl.
  - intros H. destruct (IH H) as (m & c' & r' & E). rewrite E.
    now exists (c :: m), c', r'.
  - intros _. now exists [], c, r.
Qed.

(** Where the regular expression of the extension matches. *)
Lemma extension_here c ext :
  extension (c :: ext) =
  if (c =? DOT) && is_extension ext then Some (c :: ext, []) else None.
Proof.
  unfold extension, seq_, unit_, plus_, eos.
  destruct (c =? DOT) eqn:Hc; [|reflexivity]. cbn [andb].
  destruct ext as [|x ext']; [reflexivity|].
  cbn [is_extension].
  destruct (forallb not_slash_dot (x :: ext')) eqn:F.
  - rewrite (run_all _ _ F). cbn [app]. now rewrite app_nil_r.
  - destruct (run_rest _ _ F) as (m & c' & r' & E). rewrite E.
    destruct m; reflexivity.
Qed.

Lemma strip_extension_cons c r :
  strip_extension (c :: r) =
  if (c =? DOT) && is_extension r then [] else c :: strip_extension r.
Proof.
  unfold strip_extension. cbn [replace_first]. rewrite extension_here.
  destruct ((c =? DOT) && is_extension r); reflexivity.
Qed.

Lemma is_extension_no_dot ext a b :
  is_extension ext = true -> ext <> a ++ DOT :: b.
Proof.
  intros H E. subst ext. destruct a as [|x a]; simpl in H.
  - discriminate.
  - rewrite forallb_app in H. simpl in H.
    now rewrite !andb_false_r in H.
Qed.

Lemma strip_extension_found base ext :
  is_extension ext = true -> strip_extension (base ++ DOT :: ext) = base.
Proof.
  intros H. induction base as [|c base IH].
  - cbn [app]. rewrite strip_extension_cons, H. reflexivity.
  - cbn [app]. rewrite strip_extension_cons, IH.
    destruct (is_extension (base ++ DOT :: ext)) eqn:E;
      [|now rewrite andb_false_r].
    now destruct (is_extension_no_dot _ base ext E).
Qed.

Lemma strip_extension_none s :
  has_extension s = false -> strip_extension s = s.
Proof.
  induction s as [|c r IH]; [reflexivity|].
  cbn [has_extension]. intros H. apply orb_false_iff in H as [H1 H2].
  now rewrite strip_extension_cons, H1, (IH H2).
Qed.

Lemma has_extension_spec s :
  has_extension s = true <->
  exists base ext, s = base ++ DOT :: ext /\ is_extension ext = true.
Proof.
  induction s as [|c r IH]; cbn [has_extension].
  - split; [discriminate|]. intros (base & ext & E & _).
    destruct base; discriminate.
  - rewrite orb_true_iff, IH. split.
    + intros [H|(base & ext & -> & H)].
      * apply andb_prop in H as [Hc H]. apply N.eqb_eq in Hc. subst c.
        now exists [], r.
      * now exists (c :: base), ext.
    + intros (base & ext & E & H). destruct base as [|x base].
      * injection E as -> ->. left. now rewrite N.eqb_refl.
      * injection E as -> ->. right. now exists base, ext.
Qed.

(** X4. The download name replaces the last extension only: for a name
    that ends with a dot and an extension (not empty, without slash or
    dot) it is what stands before that dot followed by [.lrc]; for any
    other name it is the whole name followed by [.lrc]. *)
Theorem download_name_replaces_extension :
  (forall base ext,
     is_extension ext = true ->
     lrcFileName (base ++ DOT :: ext) = base ++ lit ".lrc") /\
  (forall fileName,
     has_extension fileName = false ->
     lrcFileName fileName = fileName ++ lit ".lrc") /\
  (forall fileName,
     has_extension fileName = true <->
     exists base ext,
       fileName = base ++ DOT :: ext /\ is_extension ext = true).
Proof.
  split; [|split; [|exact has_extension_spec]].
  - intros base ext H. unfold lrcFileName.
    now rewrite strip_extension_found.
  - intros n H. unfold lrcFileName. now rewrite strip_extension_none.
Qed.

Lemma download_name_replaces_extension_witness :
  lrcFileName (lit "my song.final" ++ DOT :: lit "mp3")
  = lit "my song.final" ++ lit ".lrc".
Proof.
  apply (proj1 download_name_replaces_extension). reflexivity.
Defined.

(** X5. Naming is stable: the download name of a download name is that
    name again, and both have the stem of the original name; an empty
    editor downloads nothing, any other text is offered unchanged under
    the download name. *)
Theorem download_name_stable :
  forall fileName content,
    strip_extension (lrcFileName fileName) = strip_extension fileName /\
    lrcFileName (lrcFileName fileName) = lrcFileName fileName /\
    handleDownload [] fileName = None /\
    (content = [] \/
     handleDownload content fileName = Some (lrcFileName fileName, content)).
Proof.
  intros n content.
  assert (E : strip_extension (lrcFileName n) = strip_extension n).
  { unfold lrcFileName.
    change (lit ".lrc") with (DOT :: lit "lrc").
    now apply strip_extension_found. }
  split; [exact E|]. split; [unfold lrcFileName at 1; now rewrite E|].
  split; [reflexivity|]. destruct content; [now left|now right].
Qed.

(** *** Reading the file *)

Lemma nth_split_second header payload more :
  free_of COMMA header = true -> free_of COMMA payload = true ->
  more = [] \/ (exists m, more = COMMA :: m) ->
  nth_error (split COMMA (header ++ COMMA :: payload ++ more)) 1
  = Some payload.
Proof.
  intros Hh Hp Hm. rewrite split_app_sep by exact Hh. cbn [nth_error].
  destruct Hm as [->|(m & ->)].
  - rewrite app_nil_r, split_free by exact Hp. reflexivity.
  - rewrite split_app_sep by exact Hp. reflexivity.
Qed.

(** X6. Of what the reader loaded, [handleAnalyze] sends what stands
    between the first comma and the next one (or the end); when there is
    no comma, or nothing between the first comma and the next, as for the
    data URL of an empty file, the reading fails with "Failed to read file
    data."; an error of the reader fails with "Failed to read the
    file.". *)
Theorem base64_part_of_data_url :
  (forall header payload more,
     free_of COMMA header = true ->
     free_of COMMA payload = true ->
     payload <> [] ->
     more = [] \/ (exists m, more = COMMA :: m) ->
     base64DataPromise (Loaded (header ++ COMMA :: payload ++ more))
     = Fulfilled payload) /\
  (forall header more,
     free_of COMMA header = true ->
     more = [] \/ (exists m, more = COMMA :: m) ->
     base64DataPromise (Loaded (header ++ COMMA :: more))
     = Failed READ_DATA_FAILED) /\
  (forall s,
     free_of COMMA s = true ->
     base64DataPromise (Loaded s) = Failed READ_DATA_FAILED) /\
  base64DataPromise ReadError = Failed READ_FILE_FAILED.
Proof.
  split; [|split; [|split; [|reflexivity]]].
  - intros header payload more Hh Hp Hn Hm. unfold base64DataPromise.
    rewrite (nth_split_second _ _ _ Hh Hp Hm).
    destruct payload; [congruence|reflexivity].
  - intros header more Hh Hm. unfold base64DataPromise.
    change (header ++ COMMA :: more) with (header ++ COMMA :: [] ++ more).
    now rewrite (nth_split_second _ [] _ Hh eq_refl Hm).
  - intros s H. unfold base64DataPromise. now rewrite (split_free _ _ H).
Qed.

Lemma base64_part_of_data_url_witness :
  base64DataPromise
    (Loaded (lit "data:audio/mpeg;base64" ++ COMMA :: lit "SUQzBAAAAAAA" ++ []))
  = Fulfilled (lit "SUQzBAAAAAAA").
Proof.
  apply (proj1 base64_part_of_data_url);
    [reflexivity|reflexivity|discriminate|now left].
Defined.

(** *** Every run of the attempt loop *)

Section EveryRun.
Variables (w : World) (req : Request) (maxRetries : nat).

Lemma reaction_Wait_inv i f :
  reaction maxRetries i f = Wait -> (i < maxRetries - 1)%nat.
Proof.
  unfold reaction. destruct f as [m|status body]; [discriminate|].
  destruct (i <? maxRetries - 1)%nat eqn:L.
  - intros _. now apply Nat.ltb_lt.
  - rewrite andb_false_r.
    destruct body as [m|em [[|c r]|]]; try discriminate;
      destruct (negb (ok status)); discriminate.
Qed.

Lemma reaction_Give_clean i f t :
  reaction maxRetries i f = Give t -> exists x, t = clean x.
Proof.
  unfold reaction. destruct f as [m|status body]; [discriminate|].
  destruct ((status =? 429) && (i <? maxRetries - 1)%nat); [discriminate|].
  destruct body as [m|em [[|c r]|]]; try discriminate;
    destruct (negb (ok status)); try discriminate.
  intros H. injection H as <-. now exists (c :: r).
Qed.

(** How a run ends, and what it adds to the log. *)
Lemma loop_every_run remaining : forall i log,
  (0 < remaining)%nat -> (i + remaining = maxRetries)%nat ->
  ((exists x, fst (loop w req maxRetries remaining i log)
              = Fulfilled (clean x)) \/
   (exists m, fst (loop w req maxRetries remaining i log)
              = Failed (after_attempts maxRetries m))) /\
  (attempts log < attempts (snd (loop w req maxRetries remaining i log))
   <= attempts log + remaining)%nat /\
  exists ds,
    delays (snd (loop w req maxRetries remaining i log)) = delays log ++ ds /\
    (List.length ds <= remaining - 1)%nat.
Proof.
  induction remaining as [|r IH]; intros i log Hr Hi; [lia|].
  cbn [loop]. rewrite try_block_reaction.
  destruct (reaction maxRetries i (endpoint w req (attempts log))) as [|m|t]
    eqn:R.
  - apply reaction_Wait_inv in R.
    destruct (IH (S i) (log_after w i Wait log)) as (O & A & ds & D & L);
      [lia|lia|].
    split; [exact O|]. rewrite attempts_log_after in A. split; [lia|].
    exists (backoff i (random w (List.length (delays log))) :: ds).
    rewrite D. unfold log_after, waited, fetched. cbn [delays].
    rewrite <- app_assoc. split; [reflexivity|]. cbn [List.length]. lia.
  - destruct (i =? maxRetries - 1)%nat eqn:E.
    + cbn [fst snd fetched attempts delays]. split; [right; now exists m|].
      split; [lia|]. exists []. rewrite app_nil_r. split; [reflexivity|].
      cbn [List.length]. lia.
    + apply Nat.eqb_neq in E.
      destruct (IH (S i) (fetched log)) as (O & A & ds & D & L); [lia|lia|].
      split; [exact O|]. cbn [fetched attempts] in A. split; [lia|].
      exists ds. split; [exact D|lia].
  - cbn [fst snd fetched attempts delays].
    apply reaction_Give_clean in R as (x & ->).
    split; [left; now exists x|]. split; [lia|].
    exists []. rewrite app_nil_r. split; [reflexivity|].
    cbn [List.length]. lia.
Qed.





Hypothesis random_range : forall k, (0 <= random w k)%Q /\ (random w k < 1)%Q.


End EveryRun.

Lemma default_call_attempts w req :
  (attempts (snd (transcribeAudio w req 5)) <= 5)%nat.
Proof.
  unfold transcribeAudio.
  destruct (loop_every_run w req 5 5 0 start ltac:(lia) eq_refl)
    as (_ & A & _).
  cbn [start attempts] in A. lia.
Qed.

Lemma default_call_settles w req :
  (exists t, fst (transcribeAudio w req 5) = Fulfilled t /\ trim t = t) \/
  (exists m, fst (transcribeAudio w req 5) = Failed (after_attempts 5 m)).
Proof.
  unfold transcribeAudio.
  destruct (loop_every_run w req 5 5 0 start ltac:(lia) eq_refl)
    as ([(x & E)|(m & E)] & _).
  - left. exists (clean x). split; [exact E|apply trim_idem].
  - right. now exists m.
Qed.



(** X8. However the endpoint answers, a call with at least one attempt
    either returns a cleaned text, which has no white space at either end,
    or fails with a message that starts "Failed to transcribe audio after
    N attempts: "; the "Unknown error" failure is that of a call with no
    attempt at all, which calls nothing. *)
Theorem every_call_settles :
  (forall w req maxRetries,
     (0 < maxRetries)%nat ->
     (exists t, fst (transcribeAudio w req maxRetries) = Fulfilled t /\
                trim t = t) \/
     (exists m, fst (transcribeAudio w req maxRetries)
                = Failed (after_attempts maxRetries m))) /\
  (forall w req, transcribeAudio w req 0 = (Failed UNKNOWN_ERROR, start)) /\
  (forall maxRetries m, after_attempts maxRetries m <> UNKNOWN_ERROR).
Proof.
  split; [|split; [reflexivity|]].
  - intros w req n Hn. unfold transcribeAudio.
    destruct (loop_every_run w req n n 0 start Hn eq_refl)
      as ([(x & E)|(m & E)] & _).
    + left. exists (clean x). split; [exact E|apply trim_idem].
    + right. now exists m.
  - intros n m. unfold after_attempts, UNKNOWN_ERROR. discriminate.
Qed.

Lemma every_call_settles_witness :
  (exists t, fst (transcribeAudio always_fenced a_request 2) = Fulfilled t /\
             trim t = t) \/
  (exists m, fst (transcribeAudio always_fenced a_request 2)
             = Failed (after_attempts 2 m)).
Proof.
  apply (proj1 every_call_settles always_fenced a_request 2%nat). lia.
Defined.

(** *** The event handlers *)

Lemma base64DataPromise_cases r :
  (exists data, base64DataPromise r = Fulfilled data /\ data <> []) \/
  base64DataPromise r = Failed READ_DATA_FAILED \/
  base64DataPromise r = Failed READ_FILE_FAILED.
Proof.
  destruct r as [s|]; [|now right; right]. unfold base64DataPromise.
  destruct (nth_error (split COMMA s) 1) as [[|c p]|];
    [now right; left| |now right; left].
  left. exists (c :: p). split; [reflexivity|discriminate].
Qed.

Lemma failed_message m st :
  m <> [] -> errorMessage (failed m st) = Some m.
Proof. destruct m; [congruence|reflexivity]. Qed.

(** X9. [handleAnalyze] does nothing without a file.  With one, it ends in
    READY or in ERROR, never in PROCESSING: in READY the transcript is the
    text the call returned for the base64 part of the file, trimmed, and
    no error is shown; in ERROR the transcript is left as it was and the
    error shown is one of the two reading errors (then no request was
    made) or the failure of the call after 5 attempts, never the generic
    fallback.  The file and the audio URL stay, and at most 5 requests are
    made.  After a new file is selected an error leaves no transcript. *)
Theorem analyze_ends_ready_or_error :
  (forall b st, currentFile st = None -> handleAnalyze b st = (st, start)) /\
  (forall b st file,
     currentFile st = Some file ->
     currentFile (fst (handleAnalyze b st)) = Some file /\
     audioUrl (fst (handleAnalyze b st)) = audioUrl st /\
     (attempts (snd (handleAnalyze b st)) <= 5)%nat /\
     ((appState (fst (handleAnalyze b st)) = READY /\
       errorMessage (fst (handleAnalyze b st)) = None /\
       exists data t,
         base64DataPromise (readAsDataURL b file) = Fulfilled data /\
         fst (transcribeAudio (network b) (request_for file data) 5)
         = Fulfilled t /\
         transcript (fst (handleAnalyze b st)) = Some t /\ trim t = t) \/
      (appState (fst (handleAnalyze b st)) = ERROR /\
       transcript (fst (handleAnalyze b st)) = transcript st /\
       (errorMessage (fst (handleAnalyze b st)) = Some READ_DATA_FAILED /\
        snd (handleAnalyze b st) = start \/
        errorMessage (fst (handleAnalyze b st)) = Some READ_FILE_FAILED /\
        snd (handleAnalyze b st) = start \/
        exists m, errorMessage (fst (handleAnalyze b st))
                  = Some (after_attempts 5 m))))) /\
  (forall b st file,
     transcript (fst (handleAnalyze b (handleFileSelect b file st))) = None \/
     appState (fst (handleAnalyze b (handleFileSelect b file st))) = READY) /\
  (forall b st, handleAnalyze b (resetApp st) = (resetApp st, start)).
Proof.
  split; [intros b st H; unfold handleAnalyze; now rewrite H|].
  assert (M : forall b st file,
     currentFile st = Some file ->
     currentFile (fst (handleAnalyze b st)) = Some file /\
     audioUrl (fst (handleAnalyze b st)) = audioUrl st /\
     (attempts (snd (handleAnalyze b st)) <= 5)%nat /\
     ((appState (fst (handleAnalyze b st)) = READY /\
       errorMessage (fst (handleAnalyze b st)) = None /\
       exists data t,
         base64DataPromise (readAsDataURL b file) = Fulfilled data /\
         fst (transcribeAudio (network b) (request_for file data) 5)
         = Fulfilled t /\
         transcript (fst (handleAnalyze b st)) = Some t /\ trim t = t) \/
      (appState (fst (handleAnalyze b st)) = ERROR /\
       transcript (fst (handleAnalyze b st)) = transcript st /\
       (errorMessage (fst (handleAnalyze b st)) = Some READ_DATA_FAILED /\
        snd (handleAnalyze b st) = start \/
        errorMessage (fst (handleAnalyze b st)) = Some READ_FILE_FAILED /\
        snd (handleAnalyze b st) = start \/
        exists m, errorMessage (fst (handleAnalyze b st))
                  = Some (after_attempts 5 m))))).
  { intros b st file H. unfold handleAnalyze. rewrite H.
    destruct (base64DataPromise_cases (readAsDataURL b file))
      as [(data & E & _)|[E|E]]; rewrite E.
    - fold (request_for file data).
      pose proof (default_call_attempts (network b) (request_for file data))
        as A.
      destruct (default_call_settles (network b) (request_for file data))
        as [(t & F & Tt)|(m & F)];
        destruct (transcribeAudio (network b) (request_for file data) 5)
          as [r log] eqn:T;
        cbn [fst snd] in F, A; subst r; cbn [fst snd].
      + repeat split; auto. left. repeat split; auto.
        exists data, t. repeat split; auto. now rewrite T.
      + rewrite failed_message by (unfold after_attempts; discriminate).
        cbn [failed currentFile audioUrl appState transcript].
        repeat split; auto. right. repeat split; auto.
        right; right. now exists m.
    - cbn [fst snd failed currentFile audioUrl appState transcript
             errorMessage start attempts]. repeat split; auto; [lia|].
      right. repeat split; auto.
    - cbn [fst snd failed currentFile audioUrl appState transcript
             errorMessage start attempts]. repeat split; auto; [lia|].
      right. repeat split; auto. }
  split; [exact M|]. split.
  - intros b st file.
    destruct (M b (handleFileSelect b file st) file eq_refl)
      as (_ & _ & _ & [(R & _)|(_ & T & _)]); [now right|now left].
  - intros b st. reflexivity.
Qed.

Lemma analyze_ends_ready_or_error_witness :
  appState (fst (handleAnalyze a_browser an_app)) = READY /\
  currentFile (fst (handleAnalyze a_browser an_app)) = Some a_file /\
  (attempts (snd (handleAnalyze a_browser an_app)) <= 5)%nat.
Proof.
  destruct (proj1 (proj2 analyze_ends_ready_or_error) a_browser an_app a_file
              eq_refl) as (F & _ & A & _).
  split; [reflexivity|]. split; [exact F|exact A].
Defined.

(** *** The components and the service of the TypeScript variant *)

Lemma starts_with_inv p s :
  starts_with p s = true -> exists r, s = p ++ r.
Proof.
  revert s. induction p as [|c p IH]; intros s; [now exists s|].
  destruct s as [|x s]; [discriminate|]. simpl.
  intros H. apply andb_prop in H as [Hx H]. apply N.eqb_eq in Hx. subst x.
  destruct (IH _ H) as (r & ->). now exists r.
Qed.

(** X10. A file that [validateAndUpload] passes on has a type that starts
    with [audio/] and at most 20 MiB, and for such a file the type label
    of [PlayerCard] never throws: it is the upper case of what follows
    [audio/] up to the next slash, or "AUDIO" when that is empty.  For a
    type without any slash the label throws a TypeError. *)
Theorem selected_file_has_type_label :
  (forall toUpperCase isLoading file selected,
     validateAndUpload isLoading file = Selected selected ->
     selected = file /\ isLoading = false /\ size file <= MAX_SIZE /\
     exists subtype more,
       type_ file = lit "audio/" ++ subtype ++ more /\
       free_of SLASH subtype = true /\
       (more = [] \/ exists m, more = SLASH :: m) /\
       type_label toUpperCase (Some file)
       = Returns (or_else (Some (toUpperCase subtype)) (lit "AUDIO"))) /\
  (forall toUpperCase file,
     free_of SLASH (type_ file) = true ->
     type_label toUpperCase (Some file) = Throws TypeError).
Proof.
  split.
  - intros up isLoading file selected. unfold validateAndUpload.
    destruct isLoading; [discriminate|].
    destruct (starts_with (lit "audio/") (type_ file)) eqn:S;
      [|discriminate]. cbn [negb].
    destruct (MAX_SIZE <? size file) eqn:Z; [discriminate|].
    intros H. injection H as <-. apply N.ltb_ge in Z.
    repeat split; auto. apply starts_with_inv in S as (r & E).
    assert (D : exists subtype more,
               r = subtype ++ more /\ free_of SLASH subtype = true /\
               (more = [] \/ exists m, more = SLASH :: m)).
    { clear E. induction r as [|c r (sub & more & -> & F & M)].
      - exists [], []. auto.
      - destruct (c =? SLASH) eqn:C.
        + apply N.eqb_eq in C. subst c. exists [], (SLASH :: sub ++ more).
          repeat split; auto. right. now eexists.
        + exists (c :: sub), more. repeat split; auto.
          simpl. now rewrite C, F. }
    destruct D as (sub & more & -> & F & M). exists sub, more.
    repeat split; auto. unfold type_label. rewrite E.
    change (lit "audio/" ++ sub ++ more)
      with (lit "audio" ++ SLASH :: sub ++ more).
    rewrite split_app_sep by reflexivity. cbn [nth_error].
    destruct M as [->|(m & ->)].
    + rewrite app_nil_r, split_free by exact F. reflexivity.
    + rewrite split_app_sep by exact F. reflexivity.
  - intros up file F. unfold type_label. now rewrite (split_free _ _ F).
Qed.

Lemma selected_file_has_type_label_witness :
  a_file = a_file /\ false = false /\ size a_file <= MAX_SIZE /\
  exists subtype more,
    type_ a_file = lit "audio/" ++ subtype ++ more /\
    free_of SLASH subtype = true /\
    (more = [] \/ exists m, more = SLASH :: m) /\
    type_label (fun s => s) (Some a_file)
    = Returns (or_else (Some subtype) (lit "AUDIO")).
Proof.
  apply (proj1 selected_file_has_type_label (fun s => s) false a_file a_file).
  reflexivity.
Defined.

(** X11. The title of [PlayerCard] is the file name without its last
    extension; when nothing stands before the extension, as for the name
    [.mp3], or when there is no file, it is "Unknown Track". *)
Theorem title_is_stem :
  (forall f c base ext,
     name f = (c :: base) ++ DOT :: ext -> is_extension ext = true ->
     title (Some f) = c :: base) /\
  (forall f ext,
     name f = DOT :: ext -> is_extension ext = true ->
     title (Some f) = lit "Unknown Track") /\
  (forall f c r,
     name f = c :: r -> has_extension (c :: r) = false ->
     title (Some f) = c :: r) /\
  title None = lit "Unknown Track".
Proof.
  split; [|split; [|split; [|reflexivity]]].
  - intros f c base ext E H. unfold title.
    now rewrite E, strip_extension_found.
  - intros f ext E H. unfold title. rewrite E.
    change (DOT :: ext) with ([] ++ DOT :: ext).
    now rewrite strip_extension_found.
  - intros f c r E H. unfold title. now rewrite E, strip_extension_none.
Qed.

Lemma title_is_stem_witness :
  title (Some a_file) = lit "my song.final".
Proof.
  apply (proj1 title_is_stem a_file 109 (lit "y song.final") (lit "mp3"));
    reflexivity.
Defined.


(** *** More about the codec *)

Lemma decimal_bound ds :
  all_digits ds = true -> decimal ds < 10 ^ N.of_nat (List.length ds).
Proof.
  unfold decimal.
  assert (G : forall ds acc,
            all_digits ds = true ->
            fold_left (fun a c => 10 * a + (c - 48)) ds acc
            < (acc + 1) * 10 ^ N.of_nat (List.length ds)).
  { clear ds. induction ds as [|d ds IH]; intros acc H.
    - cbn. lia.
    - simpl in H. apply andb_prop in H as [Hd Hds].
      cbn [fold_left List.length]. specialize (IH (10 * acc + (d - 48)) Hds).
      unfold is_digit in Hd. apply andb_prop in Hd as [H1 H2].
      apply N.leb_le in H1. apply N.leb_le in H2.
      rewrite Nat2N.inj_succ, N.pow_succ_r'.
      eapply N.lt_le_trans; [exact IH|].
      rewrite (N.mul_comm 10), N.mul_assoc.
      apply N.mul_le_mono_r. lia. }
  intros H. specialize (G ds 0 H). now rewrite N.add_0_l, N.mul_1_l in G.
Qed.

Lemma num_nonneg n : (0 <= num n)%Q.
Proof.
  unfold num. change 0%Q with (inject_Z 0). rewrite <- Zle_Qle. lia.
Qed.

Lemma num_lt n m : n < m -> (num n < num m)%Q.
Proof. intros H. unfold num. rewrite <- Zlt_Qlt. lia. Qed.

Lemma seconds_range mm ss fd :
  well_formed mm ss fd = true ->
  (0 <= seconds mm ss fd)%Q /\ (seconds mm ss fd < 6040)%Q.
Proof.
  intros W. pose proof W as W'.
  apply well_formed_inv in W' as (Lm & Dm & Ls & Ds & _).
  pose proof (decimal_bound mm Dm) as Bm. rewrite Lm in Bm.
  pose proof (decimal_bound ss Ds) as Bs. rewrite Ls in Bs.
  apply num_lt in Bm. apply num_lt in Bs.
  change (num (10 ^ N.of_nat 2)) with 100%Q in Bm, Bs.
  pose proof (num_nonneg (decimal mm)). pose proof (num_nonneg (decimal ss)).
  assert (Bm' : (num (decimal mm) <= 99)%Q).
  { unfold num in *. change 99%Q with (inject_Z 99). rewrite <- Zle_Qle.
    change 100%Q with (inject_Z 100) in Bm. rewrite <- Zlt_Qlt in Bm. lia. }
  assert (Bs' : (num (decimal ss) <= 99)%Q).
  { unfold num in *. change 99%Q with (inject_Z 99). rewrite <- Zle_Qle.
    change 100%Q with (inject_Z 100) in Bs. rewrite <- Zlt_Qlt in Bs. lia. }
  assert (F : (0 <= match fd with
                    | Some ds =>
                        num (decimal ds)
                        / (if Nat.eqb (List.length ds) 3 then 1000 else 100)
                    | None => 0
                    end)%Q /\
              (match fd with
               | Some ds =>
                   num (decimal ds)
                   / (if Nat.eqb (List.length ds) 3 then 1000 else 100)
               | None => 0
               end < 1)%Q).
  { destruct fd as [ds|]; [|split; lra].
    unfold well_formed in W.
    repeat match goal with
           | H : _ && _ = true |- _ => apply andb_prop in H as [? ?]
           end.
    match goal with H : all_digits ds = true |- _ =>
      pose proof (decimal_bound ds H) as Bd end.
    match goal with H : Nat.leb (List.length ds) 3 = true |- _ =>
      apply Nat.leb_le in H; rename H into L3 end.
    pose proof (num_nonneg (decimal ds)) as N0.
    destruct (Nat.eqb (List.length ds) 3) eqn:E3.
    - apply Nat.eqb_eq in E3. rewrite E3 in Bd. apply num_lt in Bd.
      change (num (10 ^ N.of_nat 3)) with 1000%Q in Bd.
      split; [apply Qle_shift_div_l; lra|apply Qlt_shift_div_r; lra].
    - apply Nat.eqb_neq in E3.
      assert (B100 : decimal ds < 100).
      { eapply N.lt_le_trans; [exact Bd|].
        change 100 with (10 ^ 2). apply N.pow_le_mono_r; lia. }
      apply num_lt in B100. change (num 100) with 100%Q in B100.
      split; [apply Qle_shift_div_l; lra|apply Qlt_shift_div_r; lra]. }
  unfold seconds. destruct F as [F0 F1]. split; lra.
Qed.

(** X13. Every line object that [parseLrc] returns has a well-formed tag,
    a text without white space at either end and without line terminator,
    and a timestamp of at least 0 and less than 6040 seconds; the minutes
    and seconds fields are not range-checked beyond their two digits. *)
Theorem line_objects_are_well_formed :
  forall lrcContent doc l,
    parseLrc lrcContent = Returns doc ->
    In l doc ->
    is_tag (lrcTime l) /\
    trim (text l) = text l /\
    no_terminator (text l) = true /\
    (0 <= timestamp l)%Q /\ (timestamp l < 6040)%Q.
Proof.
  intros T doc l E Hl. rewrite parseLrc_eq in E. injection E as <-.
  apply sorted_line_origin in Hl as (line & E).
  apply line_of_inv in E as (r & _ & Ht & Hs & Hx).
  split; [exact Ht|]. rewrite Hx.
  split; [apply trim_idem|].
  split; [apply no_terminator_trim, dot_star_no_terminator|].
  destruct (is_tag_make_tag _ Ht) as (mm & ss & fd & W & Et).
  rewrite Hs, Et, (make_tag_seconds _ _ _ W).
  apply seconds_range, W.
Qed.

Lemma line_objects_are_well_formed_witness :
  exists l,
    parseLrc (Some (lit "  [99:99.999]  la la  ")) = Returns [l] /\
    is_tag (lrcTime l) /\
    trim (text l) = text l /\
    no_terminator (text l) = true /\
    (0 <= timestamp l)%Q /\ (timestamp l < 6040)%Q.
Proof.
  eexists. split; [vm_compute; reflexivity|].
  eapply (line_objects_are_well_formed
            (Some (lit "  [99:99.999]  la la  ")));
    [vm_compute; reflexivity|left; reflexivity].
Defined.

Lemma line_of_trim line line' :
  trim line = trim line' -> line_of line = line_of line'.
Proof. intros E. unfold line_of, parse_line. now rewrite E. Qed.

Lemma trim_snoc_space s c : is_space c = true -> trim (s ++ [c]) = trim s.
Proof.
  intros H. unfold trim. rewrite trimEnd_app. simpl. now rewrite H.
Qed.

Lemma filter_Boolean_app {A} (xs ys : list (option A)) :
  filter_Boolean (xs ++ ys) = filter_Boolean xs ++ filter_Boolean ys.
Proof.
  induction xs as [|[x|] xs IH]; simpl; [reflexivity| |exact IH].
  now rewrite IH.
Qed.

(** X14. Line endings of carriage return and line feed are read as line
    feeds: a text whose lines are joined by CR LF parses to the same
    document as the text whose lines are joined by LF. *)
Theorem crlf_is_read_as_lf :
  forall lines,
    Forall (fun line => free_of LF line = true) lines ->
    parseLrc (Some (join_crlf lines)) = parseLrc (Some (join LF lines)).
Proof.
  intros ls H. rewrite !parseLrc_Some. f_equal. f_equal. unfold parsed_lines.
  induction H as [|p rest Hp Hrest IH]; [reflexivity|].
  destruct rest as [|q rest]; [reflexivity|].
  change (join_crlf (p :: q :: rest))
    with (p ++ 13 :: LF :: join_crlf (q :: rest)).
  replace (p ++ 13 :: LF :: join_crlf (q :: rest))
    with ((p ++ [13]) ++ LF :: join_crlf (q :: rest))
    by (now rewrite <- app_assoc).
  change (join LF (p :: q :: rest)) with (p ++ LF :: join LF (q :: rest)).
  rewrite split_app_sep by (rewrite free_of_app, Hp; reflexivity).
  rewrite split_app_sep by exact Hp.
  cbn [List.map filter_Boolean].
  rewrite (line_of_trim (p ++ [13]) p) by (now apply trim_snoc_space).
  destruct (line_of p); now rewrite IH.
Qed.

Lemma crlf_is_read_as_lf_witness :
  parseLrc (Some (join_crlf [lit "[00:05.00] b"; lit "[00:01.00] a"; []]))
  = parseLrc (Some (join LF [lit "[00:05.00] b"; lit "[00:01.00] a"; []])).
Proof.
  apply crlf_is_read_as_lf. repeat constructor.
Defined.

Lemma trimEnd_after_tag t x : is_tag t -> trimEnd (t ++ x) = t ++ trimEnd x.
Proof.
  intros Ht. rewrite trimEnd_app.
  destruct (trimEnd x) as [|d y] eqn:E; [|reflexivity].
  rewrite app_nil_r. destruct (is_tag_bracketed _ Ht) as (body & -> & _).
  change (LBRACKET :: body ++ [RBRACKET])
    with ((LBRACKET :: body) ++ [RBRACKET]).
  now apply trimEnd_snoc_nonspace.
Qed.

Lemma dot_star_app a b :
  no_terminator a = true -> dot_star (a ++ b) = a ++ dot_star b.
Proof.
  induction a as [|c a IH]; [reflexivity|]. simpl.
  intros H. apply andb_prop in H as [Hc Ha].
  apply negb_true_iff in Hc. now rewrite Hc, (IH Ha).
Qed.

(** X15. A line that carries several tags is not expanded: it gives one
    line object, timed by its first tag, and the further tags stay at the
    head of its text. *)
Theorem further_tags_stay_in_text :
  forall mm ss fd mm' ss' fd' rest,
    well_formed mm ss fd = true ->
    well_formed mm' ss' fd' = true ->
    free_of LF rest = true ->
    exists l,
      parseLrc (Some (make_tag mm ss fd ++ make_tag mm' ss' fd' ++ rest))
      = Returns [l] /\
      lrcTime l = make_tag mm ss fd /\
      (timestamp l == seconds mm ss fd)%Q /\
      text l = make_tag mm' ss' fd' ++ trimEnd (dot_star (trimEnd rest)).
Proof.
  intros mm ss fd mm' ss' fd' rest W W' F.
  pose proof (make_tag_is_tag _ _ _ W) as Ht.
  pose proof (make_tag_is_tag _ _ _ W') as Ht'.
  destruct (line_of_make_tag [] mm ss fd (make_tag mm' ss' fd' ++ rest) W
              eq_refl) as (l & E & Hl & Hs & Hx).
  exists l. repeat split; auto.
  - rewrite parseLrc_Some. unfold parsed_lines.
    destruct (is_tag_bracketed _ Ht) as (b1 & _ & _ & _ & F1).
    destruct (is_tag_bracketed _ Ht') as (b2 & _ & _ & _ & F2).
    rewrite split_free by (now rewrite !free_of_app, F1, F2, F).
    cbn [List.map]. cbn [app] in E. now rewrite E.
  - rewrite Hx, (trimEnd_after_tag _ _ Ht').
    destruct (is_tag_bracketed _ Ht') as (b2 & _ & _ & T2 & _).
    rewrite (dot_star_app _ _ T2).
    change (make_tag mm' ss' fd' ++ dot_star (trimEnd rest))
      with ([] ++ make_tag mm' ss' fd' ++ dot_star (trimEnd rest)).
    now rewrite (trim_around_tag [] _ _ Ht').
Qed.

Lemma further_tags_stay_in_text_witness :
  exists l,
    parseLrc (Some (make_tag (lit "00") (lit "12") (Some (lit "00"))
                    ++ make_tag (lit "01") (lit "30") (Some (lit "00"))
                    ++ lit " Chorus ")) = Returns [l] /\
    lrcTime l = make_tag (lit "00") (lit "12") (Some (lit "00")) /\
    (timestamp l == seconds (lit "00") (lit "12") (Some (lit "00")))%Q /\
    text l = make_tag (lit "01") (lit "30") (Some (lit "00"))
             ++ trimEnd (dot_star (trimEnd (lit " Chorus "))).
Proof.
  apply further_tags_stay_in_text; reflexivity.
Defined.

Lemma split_app_any sep a b :
  split sep (a ++ sep :: b) = split sep a ++ split sep b.
Proof.
  induction a as [|c a IH]; simpl.
  - now rewrite N.eqb_refl.
  - destruct (c =? sep) eqn:E; [now rewrite IH|].
    rewrite IH. destruct (split sep a) as [|h t] eqn:S; [|reflexivity].
    now destruct (split_not_nil sep a).
Qed.

Lemma parsed_lines_app a b :
  parsed_lines (a ++ LF :: b) = parsed_lines a ++ parsed_lines b.
Proof.
  unfold parsed_lines.
  now rewrite split_app_any, map_app, filter_Boolean_app.
Qed.

Lemma insert_app {A} (key : A -> Q) x s1 s2 :
  Forall (key_le key x) s2 ->
  insert (by_key key) x (s1 ++ s2) = insert (by_key key) x s1 ++ s2.
Proof.
  intros H. induction s1 as [|z s1 IH]; cbn [app insert].
  - destruct s2 as [|y s2]; [reflexivity|].
    inversion H as [|? ? Hy _]; subst. apply by_key_le in Hy.
    cbn [insert]. now rewrite Hy.
  - destruct (Qle_bool (by_key key x z) 0); [reflexivity|].
    cbn [app]. now rewrite IH.
Qed.

Lemma sort_app {A} (key : A -> Q) la lb :
  (forall x y, In x la -> In y lb -> key_le key x y) ->
  sort (by_key key) (la ++ lb) = sort (by_key key) la ++ sort (by_key key) lb.
Proof.
  induction la as [|x la IH]; intros H; [reflexivity|].
  cbn [app sort fold_right]. fold (sort (by_key key) (la ++ lb)).
  fold (sort (by_key key) la).
  rewrite IH by (intros; apply H; [now right|assumption]).
  apply insert_app. apply Forall_forall. intros y Hy.
  apply H; [now left|].
  now apply (Permutation_in _ (sort_perm key lb)) in Hy.
Qed.

(** X16. The document of two texts put one after the other, with a line
    feed between, holds the lines of both documents; when no line of the
    first is later than a line of the second, it is the first document
    followed by the second. *)
Theorem parse_of_appended_texts :
  forall a b da db,
    parseLrc (Some a) = Returns da ->
    parseLrc (Some b) = Returns db ->
    exists doc,
      parseLrc (Some (a ++ LF :: b)) = Returns doc /\
      Permutation doc (da ++ db) /\
      ((forall x y, In x da -> In y db -> key_le timestamp x y) ->
       doc = da ++ db).
Proof.
  intros a b da db Ea Eb. rewrite parseLrc_Some in Ea, Eb.
  injection Ea as <-. injection Eb as <-.
  eexists. split; [apply parseLrc_Some|]. rewrite parsed_lines_app. split.
  - change compare_lines with (by_key timestamp).
    rewrite (sort_perm timestamp).
    apply Permutation_app; symmetry; apply (sort_perm timestamp).
  - intros H. change compare_lines with (by_key timestamp).
    apply sort_app. intros x y Hx Hy. apply H.
    + now apply (Permutation_in _ (Permutation_sym (sort_perm timestamp _))).
    + now apply (Permutation_in _ (Permutation_sym (sort_perm timestamp _))).
Qed.

Lemma parse_of_appended_texts_witness :
  exists da db doc,
    parseLrc (Some (lit "[00:01.00] a")) = Returns da /\
    parseLrc (Some (lit "[00:05.00] b")) = Returns db /\
    parseLrc (Some (lit "[00:01.00] a" ++ LF :: lit "[00:05.00] b"))
    = Returns doc /\
    Permutation doc (da ++ db) /\
    ((forall x y, In x da -> In y db -> key_le timestamp x y) ->
     doc = da ++ db).
Proof.
  do 2 eexists.
  assert (Ea : parseLrc (Some (lit "[00:01.00] a"))
               = Returns (sort compare_lines (parsed_lines (lit "[00:01.00] a"))))
    by (vm_compute; reflexivity).
  assert (Eb : parseLrc (Some (lit "[00:05.00] b"))
               = Returns (sort compare_lines (parsed_lines (lit "[00:05.00] b"))))
    by (vm_compute; reflexivity).
  destruct (parse_of_appended_texts _ _ _ _ Ea Eb) as (doc & E & P & S).
  exists doc. repeat split; eauto.
Defined.

